(** * image_resize_service: size computation, storage contract and lazy
      resize-and-cache protocol.

    Shallow embedding of [src/image_resize_service.py] and
    [src/storage/image_storage.py].

    Python [int]s are unbounded, hence [Z].  Python [float]s are IEEE-754
    binary64 values; they are modelled by the Standard Library's executable
    specification [spec_float] with [prec = 53] and [emax = 1024]. *)

From Stdlib Require Import ZArith Lia QArith Qround Qabs Qpower Qminmax Lqa.
From Stdlib Require Import Floats.SpecFloat.
From stdpp Require Import gmap strings list fin_maps.

Local Open Scope Z_scope.

(** ** Errors raised by the modelled code *)

Inductive error : Type :=
| NotFound            (* werkzeug.exceptions.NotFound *)
| ZeroDivisionError   (* float division by zero *)
| OverflowError       (* int too large for a float, or int() of an infinity *)
| ValueError          (* int() of a NaN, unpacking, a size PIL refuses *)
| KeyError            (* dict lookup of a missing key *)
| IOError             (* undecodable image data, write on a read-only file *)
| InvalidSource.      (* named by the specification, raised nowhere *)

Inductive result (A : Type) : Type :=
| Ok (a : A)
| Raise (e : error).
Arguments Ok {A} a.
Arguments Raise {A} e.

(** Exceptions propagate: the usual error monad, with stdpp's
    [x ← m; k] notation. *)
#[export] Instance result_ret : MRet result := fun A a => Ok a.
#[export] Instance result_bind : MBind result := fun A B k r =>
  match r with
  | Ok a => k a
  | Raise e => Raise e
  end.

#[export] Instance result_fmap : FMap result := fun A B f r =>
  match r with
  | Ok a => Ok (f a)
  | Raise e => Raise e
  end.

(** ** Python floats *)

Module PyFloat.

Definition prec : Z := 53.
Definition emax : Z := 1024.

Definition float := spec_float.

(** [float(n)] for an [int]: correctly rounded, [OverflowError] when the
    rounded value is out of range. *)
Definition of_int (n : Z) : result float :=
  match binary_normalize prec emax n 0 false with
  | S754_infinity _ => Raise OverflowError
  | f => Ok f
  end.

Definition is_zero (f : float) : bool :=
  match f with
  | S754_zero _ => true
  | _ => false
  end.

(** [n / f] with [n] an [int] and [f] a [float]: [float.__rtruediv__]
    converts [n], then rejects a zero divisor. *)
Definition int_truediv (n : Z) (f : float) : result float :=
  a ← of_int n;
  if is_zero f then Raise ZeroDivisionError
  else Ok (SFdiv prec emax a f).

(** [n * f] with [n] an [int] and [f] a [float]. *)
Definition int_mul (n : Z) (f : float) : result float :=
  a ← of_int n;
  Ok (SFmul prec emax a f).

(** The builtin [min(a, b)]: keeps [a] unless [b < a]. *)
Definition min (a b : float) : float :=
  if SFltb b a then b else a.

(** [int(f)]: truncation towards zero. *)
Definition to_int (f : float) : result Z :=
  match f with
  | S754_zero _ => Ok 0
  | S754_infinity _ => Raise OverflowError
  | S754_nan => Raise ValueError
  | S754_finite s m e =>
      let a := match e with
               | Zneg p => Z.shiftr (Zpos m) (Zpos p)
               | _ => Z.shiftl (Zpos m) e
               end in
      Ok (if s then - a else a)
  end.

End PyFloat.

(** ** SizeCalculator: [_calc_size] *)

(** The only attribute of a PIL image that [_calc_size] reads. *)
Record image : Type := Image { size : Z * Z; pixels : list Z }.

Definition _calc_size (target_size : Z * Z) (im : image) : result (Z * Z) :=
  let '(max_width, max_height) := target_size in
  let '(width, height) := size im in
  if (max_width >=? width) && (max_height >=? height) then
    Ok (size im)
  else
    fw ← PyFloat.of_int width;
    sw ← PyFloat.int_truediv max_width fw;
    fh ← PyFloat.of_int height;
    sh ← PyFloat.int_truediv max_height fh;
    let scale := PyFloat.min sw sh in
    pw ← PyFloat.int_mul width scale;
    out_w ← PyFloat.to_int pw;
    ph ← PyFloat.int_mul height scale;
    out_h ← PyFloat.to_int ph;
    Ok (out_w, out_h).

(** ** Exact arithmetic

    The specification states [fit] over real-valued division; the inputs
    being integers, rational numbers are the reals it needs. *)

(** [scale = min(maxW / w, maxH / h)] with real-valued division. *)
Definition exact_scale (box src : Z * Z) : Q :=
  Qmin (inject_Z box.1 / inject_Z src.1) (inject_Z box.2 / inject_Z src.2).

(** The specification's [fit], over exact arithmetic. *)
Definition fit_spec (box src : Z * Z) : Z * Z :=
  if (box.1 >=? src.1) && (box.2 >=? src.2) then src
  else (Qfloor (exact_scale box src * inject_Z src.1),
        Qfloor (exact_scale box src * inject_Z src.2)).

(** An output dimension [o] against its exact value [X]: the floor of [X],
    or one less when [X] is an integer. *)
Definition dim_ok (o : Z) (X : Q) : Prop :=
  0 ≤ o ∧ Qfloor X - 1 ≤ o ≤ Qfloor X ∧
  (¬ (X == inject_Z (Qfloor X))%Q → o = Qfloor X).

(** The exact scaled value is an integer. *)
Definition is_integer (X : Q) : Prop := (X == inject_Z (Qfloor X))%Q.

(** ** Values of floats *)

Definition pow2 (e : Z) : Q := (2 ^ e)%Q.

(** The rational number a finite float stands for. *)
Definition F2Q (f : spec_float) : Q :=
  match f with
  | S754_finite s m e => (inject_Z (cond_Zopp s (Z.pos m)) * pow2 e)%Q
  | _ => 0%Q
  end.

(** The unit roundoff of binary64. *)
Definition roundoff : Q := (1 # 9007199254740992)%Q.

(** Position of an exact value [N] (in units of [U]) relative to the
    truncated mantissa of a shift record: the round bit tells the half, the
    sticky bit tells whether anything lies beyond. *)
Definition loc_ok (N U : Z) (mrs : shr_record) : Prop :=
  let m := shr_m mrs in
  0 ≤ m ∧
  match shr_r mrs, shr_s mrs with
  | false, false => 2 * N = 2 * m * U
  | false, true => 2 * m * U < 2 * N < (2 * m + 1) * U
  | true, false => 2 * N = (2 * m + 1) * U
  | true, true => (2 * m + 1) * U < 2 * N < (2 * m + 2) * U
  end.

(** [f] is the float computed for the exact non-negative value [x]: zero
    for zero, otherwise a normalised number within one rounding of [x]. *)
Definition approx (f : spec_float) (x : Q) : Prop :=
  match f with
  | S754_zero false => (x == 0)%Q
  | S754_finite false m e =>
      2 ^ 52 ≤ Z.pos m < 2 ^ 53 ∧ -200 ≤ e ≤ 200 ∧
      ((1 - roundoff) * F2Q f <= x <= (1 + roundoff) * F2Q f)%Q
  | _ => False
  end.

(** ** VariantStore: the [ImageStorage] interface *)

Definition bytes : Type := list Byte.byte.

(** Arguments [(project, name, extension, size)] of the storage methods;
    [size] defaults to [None], which designates the original. *)
Definition image_key : Type := string * string * string * option string.

(** What [get] hands out: "a filedescriptor to the image (file, or io)".
    A file object opened for reading refuses [write]; an [io.BytesIO] is a
    private buffer that accepts it. *)
Record handle : Type := Handle { contents : bytes; writable : bool }.

(** [fd.seek(0); fd.write(data)] *)
Definition handle_write (fd : handle) (data : bytes) : result handle :=
  if writable fd then
    Ok (Handle (data ++ drop (length data) (contents fd)) true)
  else Raise IOError.

(** [fd.seek(0); fd.read()] *)
Definition handle_read (fd : handle) : bytes := contents fd.

(** The abstract methods of [class ImageStorage]. *)
Class ImageStorage (S : Type) : Type := {
  exists_ : S → image_key → bool;
  save : S → image_key → bytes → S;
  get : S → image_key → result handle;
}.

(** The behaviour every backend must have, as the storage test case
    [FSStorageTestCase] pins it down ("all storages must have the same
    behaviour as it's tested here"). *)
Class ImageStorageLaws (S : Type) `{ImageStorage S} : Prop := {
  (* test_save_new_img, test_overwrite *)
  get_save st k data : handle_read <$> get (save st k data) k = Ok data;
  exists_save st k data : exists_ (save st k data) k = true;
  (* test_get_existing_image *)
  get_exists st k : exists_ st k = true → ∃ fd, get st k = Ok fd;
  (* test_get_missing_image *)
  get_missing st k : exists_ st k = false → get st k = Raise NotFound;
}.

(** Modelled from the spec: the two backends [storage/filesystem.py] and
    [storage/appengine_datastore.py] are not part of the sources.  Both
    keep one artifact per key; [save] creates or replaces it; [get] fails
    with [NotFound] on a key without artifact and otherwise returns a
    read-only view of the stored bytes.  The backends "must satisfy
    identical observable behavior" for all operations.  The specification's
    [Immutable] is the [IOError] a file object opened for reading raises on
    [write], which [FSStorageTestCase.test_image_fd_is_readonly] expects. *)
Record FileImageStorage : Type :=
  { files : gmap image_key bytes }.
(** Modelled from the spec: the datastore backend
    [storage/appengine_datastore.py], one record per key. *)
Record DatastoreImageStorage : Type :=
  { records : gmap image_key bytes }.

(** Modelled from the spec: [FileImageStorage]'s methods; [get] opens the
    file for reading. *)
#[export] Instance file_storage : ImageStorage FileImageStorage := {
  exists_ st k := bool_decide (is_Some (files st !! k));
  save st k data := {| files := <[k := data]> (files st) |};
  get st k :=
    match files st !! k with
    | Some data => Ok (Handle data false)
    | None => Raise NotFound
    end;
}.

(** Modelled from the spec: [DatastoreImageStorage]'s methods; [get]
    returns a read-only view of the record, as the other backend does. *)
#[export] Instance datastore_storage : ImageStorage DatastoreImageStorage := {
  exists_ st k := bool_decide (is_Some (records st !! k));
  save st k data := {| records := <[k := data]> (records st) |};
  get st k :=
    match records st !! k with
    | Some data => Ok (Handle data false)
    | None => Raise NotFound
    end;
}.

(** ** ResizeOrchestrator *)

(** Calls that leave the orchestrator, in the order they are made. *)
Inductive event : Type :=
| EvExists (k : image_key)
| EvGet (k : image_key)
| EvSave (k : image_key) (data : bytes)
| EvImageOpen
| EvResize (sz : Z * Z)
| EvImageSave.

Definition is_codec_event (ev : event) : bool :=
  match ev with
  | EvImageOpen | EvResize _ | EvImageSave => true
  | _ => false
  end.

(** [app.config['PROJECTS'][project]] *)
Record project_config : Type := ProjectConfig {
  dimensions : gmap string (Z * Z);
  auth : string * string;
}.

(** [send_file(f, mimetype=...)]: the body sent and its mime type. *)
Definition response : Type := bytes * string.

Definition send_file (fd : handle) (mimetype : string) : response :=
  (handle_read fd, mimetype).

(** Python truthiness of the [size] argument: [None] and [''] are false. *)
Definition truthy (size : option string) : bool :=
  match size with
  | Some s => negb (bool_decide (s = EmptyString))
  | None => false
  end.

(** Keys do not interfere: [test_overwrite] writes the original and the
    [imaginary_size] variant of one image and reads each back. *)
Class ImageStorageFrame (S : Type) `{ImageStorage S} : Prop := {
  get_save_ne st k k' data : k ≠ k' → get (save st k data) k' = get st k';
  exists_save_ne st k k' data :
    k ≠ k' → exists_ (save st k data) k' = exists_ st k';
}.

(** ** The storage singleton: [_storage] *)

(** The object behind the global [__storage]: one of the two backends. *)
Inductive storage_object : Type :=
| FileStorageObject (st : FileImageStorage)
| DatastoreObject (st : DatastoreImageStorage).

(** Method calls on [_storage()] dispatch on the class of the object. *)
#[export] Instance storage_object_storage : ImageStorage storage_object := {
  exists_ o k :=
    match o with
    | FileStorageObject st => exists_ st k
    | DatastoreObject st => exists_ st k
    end;
  save o k data :=
    match o with
    | FileStorageObject st => FileStorageObject (save st k data)
    | DatastoreObject st => DatastoreObject (save st k data)
    end;
  get o k :=
    match o with
    | FileStorageObject st => get st k
    | DatastoreObject st => get st k
    end;
}.

(** [_storage()]: [STORAGE] is [app.config['STORAGE']], [disk] and
    [datastore] are what the two backends find when they are constructed,
    [__storage] is the global before the call.  The result is the value
    returned, which is also the global after the call. *)
Definition _storage (STORAGE : string) (disk : FileImageStorage)
    (datastore : DatastoreImageStorage) (__storage : option storage_object)
    : option storage_object :=
  match __storage with
  | Some o => Some o
  | None =>
      if bool_decide (STORAGE = "FILESYSTEM"%string) then
        Some (FileStorageObject disk)
      else if bool_decide (STORAGE = "APPENGINE"%string) then
        Some (DatastoreObject datastore)
      else None
  end.

(** ** Strings and requests *)

Module PyStr.

(** The character ['.']. *)
Definition dot : Ascii.ascii := Ascii.ascii_of_nat 46.

(** [s.rsplit('.', 1)]: split at the last dot, if there is one. *)
Fixpoint split_last_dot (s : string) : option (string * string) :=
  match s with
  | EmptyString => None
  | String c s' =>
      match split_last_dot s' with
      | Some (a, b) => Some (String c a, b)
      | None =>
          if Ascii.eqb c dot then Some (EmptyString, s') else None
      end
  end.

Definition rsplit_dot (s : string) : list string :=
  match split_last_dot s with
  | Some (a, b) => [a; b]
  | None => [s]
  end.

(** [a, b = l]: unpacking into two names. *)
Definition unpack2 (l : list string) : result (string * string) :=
  match l with
  | [a; b] => Ok (a, b)
  | _ => Raise ValueError
  end.

(** [c.lower()] on an ASCII character. *)
Definition lower_char (c : Ascii.ascii) : Ascii.ascii :=
  let n := Ascii.N_of_ascii c in
  if ((65 <=? n) && (n <=? 90))%N then Ascii.ascii_of_N (n + 32) else c.

(** [s.lower()] on an ASCII string, which is what [secure_filename]
    returns. *)
Fixpoint lower (s : string) : string :=
  match s with
  | EmptyString => EmptyString
  | String c s' => String (lower_char c) (lower s')
  end.

End PyStr.

(** [werkzeug]'s [FileStorage]: the name the client sent and the data. *)
Record uploaded_file : Type :=
  UploadedFile { filename : string; stream : handle }.

(** What the handlers read from [flask.request]. *)
Record request : Type := Request {
  authorization : option (string * string);
  form : gmap string string;
  req_files : gmap string uploaded_file;  (* request.files *)
}.

(** The replies that are not images: [jsonify(content)] with a status
    code, and [Response(body, status, headers)]. *)
Inductive reply : Type :=
| JsonReply (content : gmap string string) (status_code : Z)
| TextReply (body : string) (status_code : Z)
            (headers : list (string * string)).

(** [json_response(content, http_statuscode=200)] *)
Definition json_response (content : gmap string string)
    (http_statuscode : Z) : reply :=
  JsonReply content http_statuscode.

Definition double_quote : string :=
  String (Ascii.ascii_of_nat 34) EmptyString.
Definition newline : string :=
  String (Ascii.ascii_of_nat 10) EmptyString.

(** [_authenticate()]: "Sends a 401 response that enables basic auth". *)
Definition _authenticate : reply :=
  TextReply
    ("Could not verify your access level for that URL." +:+ newline +:+
     "You have to login with proper credentials and a valid PROJECT in your request")
    401
    [("WWW-Authenticate"%string,
      "Basic realm=" +:+ double_quote +:+ "Login Required" +:+ double_quote)].

Section Service.
Context {S : Type} `{ImageStorage S}.

(** The PIL codec: [Image.open], [Image.resize], [Image.save(_, 'JPEG')]. *)
Variable Image_open : bytes → result image.
Variable Image_resize : image → Z * Z → result image.
Variable Image_save : image → result bytes.

Variable PROJECTS : gmap string project_config.

(** The process state: the storage behind [_storage()] and the calls
    made so far (newest last). *)
Record world : Type := World { storage : S; trace : list event }.

(** Computations that may raise and that act on the process state; the
    state reached before an exception stays. *)
Definition M (A : Type) : Type := world → result A * world.

Definition ret {A} (a : A) : M A := fun w => (Ok a, w).
Definition raise {A} (e : error) : M A := fun w => (Raise e, w).
Definition bindM {A B} (m : M A) (k : A → M B) : M B := fun w =>
  match m w with
  | (Ok a, w') => k a w'
  | (Raise e, w') => (Raise e, w')
  end.
Definition log (ev : event) : M unit := fun w =>
  (Ok tt, World (storage w) (trace w ++ [ev])).
Definition lift {A} (r : result A) : M A := fun w => (r, w).

Notation "x ⇐ m ;; k" := (bindM m (fun x => k))
  (at level 100, m at next level, k at level 200, right associativity).
Notation "m ;;; k" := (bindM m (fun _ => k))
  (at level 100, k at level 200, right associativity).

Definition storage_exists (k : image_key) : M bool :=
  log (EvExists k) ;;; fun w => (Ok (exists_ (storage w) k), w).
Definition storage_get (k : image_key) : M handle :=
  log (EvGet k) ;;; fun w => (get (storage w) k, w).
Definition storage_save (k : image_key) (data : bytes) : M unit :=
  log (EvSave k data) ;;;
  fun w => (Ok tt, World (save (storage w) k data) (trace w)).

Definition pil_open (fd : handle) : M image :=
  log EvImageOpen ;;; lift (Image_open (handle_read fd)).
Definition pil_resize (im : image) (sz : Z * Z) : M image :=
  log (EvResize sz) ;;; lift (Image_resize im sz).
Definition pil_save (im : image) : M bytes :=
  log EvImageSave ;;; lift (Image_save im).

(** [ImageStorage.save_image] *)
Definition save_image (project name extension : string) (pil_image : image)
    (size : option string) : M unit :=
  data ⇐ pil_save pil_image ;;
  storage_save (project, name, extension, size) data.

(** [app.config['PROJECTS'][project]['dimensions'][size]] *)
Definition lookup_dimensions (project : string) (size : option string)
    : result (Z * Z) :=
  match PROJECTS !! project with
  | None => Raise KeyError
  | Some cfg =>
      match size with
      | None => Raise KeyError
      | Some s =>
          match dimensions cfg !! s with
          | None => Raise KeyError
          | Some d => Ok d
          end
      end
  end.

Definition _resize_image (project name extension : string)
    (size : option string) : M handle :=
  found ⇐ storage_exists (project, name, extension, None) ;;
  if negb found then raise NotFound
  else
    fd ⇐ storage_get (project, name, extension, None) ;;
    im ⇐ pil_open fd ;;
    target ⇐ lift (lookup_dimensions project size) ;;
    new_size ⇐ lift (_calc_size target im) ;;
    im ⇐ pil_resize im new_size ;;
    save_image project name extension im size ;;;
    data ⇐ pil_save im ;;
    ret (Handle data true).

Definition size_configured (cfg : project_config) (size : option string)
    : bool :=
  match size with
  | Some s => bool_decide (is_Some (dimensions cfg !! s))
  | None => false
  end.

Definition _serve_image (project name : string) (size : option string)
    (extension : string) : M response :=
  match PROJECTS !! project with
  | None => raise NotFound
  | Some cfg =>
      if truthy size && negb (size_configured cfg size) then raise NotFound
      else
        found ⇐ storage_exists (project, name, extension, size) ;;
        if negb found then
          resized_file ⇐ _resize_image project name extension size ;;
          ret (send_file resized_file "image/jpeg")
        else
          fd ⇐ storage_get (project, name, extension, size) ;;
          ret (send_file fd "image/jpeg")
  end.

(** *** Authentication and upload *)

(** [app.config['ALLOWED_EXTENSIONS']] *)
Variable ALLOWED_EXTENSIONS : gset string.

(** [werkzeug.utils.secure_filename] and Flask's [url_for] for the endpoint
    [serve_original_image]. *)
Variable secure_filename : string → string.
Variable url_for_serve_original_image : string → string → string → string.

(** [try: m except IOError: handler] *)
Definition except_IOError {A} (m handler : M A) : M A := fun w =>
  match m w with
  | (Raise IOError, w') => handler w'
  | r => r
  end.

(** [_check_auth(username, password)], reading [request.form]. *)
Definition _check_auth (req : request) (username password : string)
    : result bool :=
  match form req !! "project"%string with
  | None => Raise KeyError
  | Some project =>
      match PROJECTS !! project with
      | None => Ok false
      | Some cfg =>
          let '(correct_user, correct_pass) := auth cfg in
          Ok (bool_decide (username = correct_user)
              && bool_decide (password = correct_pass))
      end
  end.

(** The decorator [requires_auth(f)]. *)
Definition requires_auth (f : request → M reply) (req : request) : M reply :=
  match authorization req with
  | None => ret _authenticate
  | Some (username, password) =>
      ok ⇐ lift (_check_auth req username password) ;;
      if negb ok then ret _authenticate else f req
  end.

(** [serve_original_image] and [serve_resized_image], the two routes to
    [_serve_image]. *)
Definition serve_original_image (project name extension : string)
    : M response :=
  _serve_image project name None extension.

Definition serve_resized_image (project name size extension : string)
    : M response :=
  _serve_image project name (Some size) extension.

(** The function [upload_image] as written, before [@requires_auth]. *)
Definition upload_image_body (req : request) : M reply :=
  match req_files req !! "file"%string with
  | None => raise KeyError
  | Some uploaded =>
      match form req !! "project"%string with
      | None => raise KeyError
      | Some project =>
          if negb (bool_decide (is_Some (PROJECTS !! project))) then
            ret (json_response
                   {[ "status"%string := "fail"%string;
                      "message"%string := "project is not configured!"%string ]}
                   500)
          else if negb (bool_decide (filename uploaded = EmptyString)) then
            name_ext ⇐ lift (PyStr.unpack2
                               (PyStr.rsplit_dot
                                  (secure_filename (filename uploaded)))) ;;
            let '(fname, extension) := name_ext in
            if negb (bool_decide
                       (PyStr.lower extension ∈ ALLOWED_EXTENSIONS)) then
              ret (json_response
                     {[ "status"%string := "fail"%string;
                        "message"%string :=
                          "unsupported image file extension. check ALLOWED_EXTENSIONS"%string ]}
                     500)
            else
              except_IOError
                (im ⇐ pil_open (stream uploaded) ;;
                 save_image project fname extension im None ;;;
                 ret (json_response
                        {[ "status"%string := "ok"%string;
                           "url"%string :=
                             url_for_serve_original_image
                               project fname extension ]}
                        200))
                (ret (json_response
                        {[ "status"%string := "fail"%string;
                           "message"%string :=
                             "your uploaded binary data does not represent a recognized image format."%string ]}
                        500))
          else
            ret (json_response
                   {[ "status"%string := "fail"%string;
                      "message"%string := "no image uploaded!"%string ]}
                   500)
      end
  end.

(** [upload_image], the handler of [POST /upload]. *)
Definition upload_image : request → M reply :=
  requires_auth upload_image_body.

(** The request carries the credentials configured for its project. *)
Definition authorized (req : request) : Prop :=
  ∃ project cfg,
    form req !! "project"%string = Some project ∧
    PROJECTS !! project = Some cfg ∧
    authorization req = Some (auth cfg).

(** The reply of a successful upload. *)
Definition upload_ok_reply (project fname extension : string) : reply :=
  json_response
    {[ "status"%string := "ok"%string;
       "url"%string :=
         url_for_serve_original_image project fname extension ]}
    200.

End Service.

(** ** A concrete deployment

    A small codec and configuration on which the orchestrator can be run:
    images travel in a raw format, two big-endian bytes of width, two of
    height, then the samples. *)
Module Demo.

Definition byte_to_Z (b : Byte.byte) : Z := Z.of_N (Byte.to_N b).
Definition byte_of_Z (z : Z) : Byte.byte :=
  default Byte.x00 (Byte.of_N (Z.to_N (z mod 256))).

Definition Image_open (data : bytes) : result image :=
  match data with
  | w1 :: w0 :: h1 :: h0 :: px =>
      Ok (Image (256 * byte_to_Z w1 + byte_to_Z w0,
                 256 * byte_to_Z h1 + byte_to_Z h0)
                (byte_to_Z <$> px))
  | _ => Raise IOError
  end.

(** [Image.resize] refuses a size that is not positive in both dimensions
    ("height and width must be > 0"). *)
Definition Image_resize (im : image) (sz : Z * Z) : result image :=
  if (0 <? sz.1) && (0 <? sz.2) then Ok (Image sz (pixels im))
  else Raise ValueError.

Definition Image_save (im : image) : result bytes :=
  let '(w, h) := size im in
  Ok (byte_of_Z (w / 256) :: byte_of_Z w ::
      byte_of_Z (h / 256) :: byte_of_Z h :: (byte_of_Z <$> pixels im)).

(** One project with the named size [small = (100, 100)]. *)
Definition PROJECTS : gmap string project_config :=
  {[ "demo_project"%string :=
       ProjectConfig {[ "small"%string := (100, 100) ]}
                     ("user"%string, "secret"%string) ]}.

(** A 200x400 original. *)
Definition welcome : bytes :=
  [Byte.x00; Byte.xc8; Byte.x01; Byte.x90; Byte.x2a].

Definition fs0 : FileImageStorage :=
  {| files := {[ ("demo_project", "welcome", "jpg", None)%string
                 := welcome ]} |}.

Definition w0 : world := World fs0 [].



Definition serve :=
  _serve_image (S := FileImageStorage)
    Image_open Image_resize Image_save PROJECTS.

(** The upload side of the deployment. *)
Definition ALLOWED_EXTENSIONS : gset string :=
  {[ "jpg"%string; "jpeg"%string; "png"%string ]}.

(** A stand-in for [secure_filename]: spaces become underscores. *)
Fixpoint secure_filename (s : string) : string :=
  match s with
  | EmptyString => EmptyString
  | String c s' =>
      String (if Ascii.eqb c (Ascii.ascii_of_nat 32)
              then Ascii.ascii_of_nat 95 else c)
             (secure_filename s')
  end.

Definition url_for_serve_original_image (project name extension : string)
    : string :=
  "/img/" +:+ project +:+ "/" +:+ name +:+ "." +:+ extension.

Definition upload_image :=
  upload_image (S := FileImageStorage)
    Image_open Image_save PROJECTS ALLOWED_EXTENSIONS secure_filename
    url_for_serve_original_image.

(** A 3x2 picture sent as [my cat.JPG] with the project's credentials. *)
Definition cat : bytes :=
  [Byte.x00; Byte.x03; Byte.x00; Byte.x02; Byte.x07].

Definition upload_request : request :=
  Request (Some ("user"%string, "secret"%string))
          {[ "project"%string := "demo_project"%string ]}
          {[ "file"%string := UploadedFile "my cat.JPG" (Handle cat false) ]}.

End Demo.

(** * Properties *)

(** ** The storage backends *)

#[export] Instance file_storage_laws : ImageStorageLaws FileImageStorage.
Proof.
  split; intros st k; simpl.
  - intros data. by rewrite lookup_insert_eq.
  - intros data. rewrite lookup_insert_eq. by apply bool_decide_eq_true.
  - intros [data Hk]%bool_decide_eq_true. rewrite Hk. eauto.
  - intros Hk%bool_decide_eq_false. destruct (files st !! k) eqn:E; [|done].
    destruct Hk. eauto.
Qed.

#[export] Instance datastore_storage_laws :
  ImageStorageLaws DatastoreImageStorage.
Proof.
  split; intros st k; simpl.
  - intros data. by rewrite lookup_insert_eq.
  - intros data. rewrite lookup_insert_eq. by apply bool_decide_eq_true.
  - intros [data Hk]%bool_decide_eq_true. rewrite Hk. eauto.
  - intros Hk%bool_decide_eq_false. destruct (records st !! k) eqn:E; [|done].
    destruct Hk. eauto.
Qed.

(** Reading a key back on either backend. *)
Definition read_back {S} `{ImageStorage S} (st : S) (k : image_key)
    : result bytes :=
  handle_read <$> get st k.

(** C8. Overwrite semantics: on either backend, after any sequence of
    writes to a key, a read of that key returns exactly the bytes of the
    newest write (last write wins, nothing of an older artifact remains),
    whatever the key held before. *)
Theorem C8_overwrite_last_write_wins :
  (∀ (st : FileImageStorage) k (older : list bytes) newest,
     read_back (save (foldl (λ s d, save s k d) st older) k newest) k
     = Ok newest) ∧
  (∀ (st : DatastoreImageStorage) k (older : list bytes) newest,
     read_back (save (foldl (λ s d, save s k d) st older) k newest) k
     = Ok newest).
Proof.
  split; intros st k older newest; unfold read_back; apply get_save.
Qed.

(** C9. On either backend, whatever the store holds: for a key with an
    existing artifact [get] returns a handle, and every attempt to write
    through that handle, with whatever data, is refused with [IOError] (the
    specification's [Immutable]). *)
Theorem C9_read_handle_rejects_write
    (fs : FileImageStorage) (ds : DatastoreImageStorage)
    (k : image_key) (data : bytes) :
  (exists_ fs k = true →
   ∃ fd, get fs k = Ok fd ∧ writable fd = false ∧
         handle_write fd data = Raise IOError) ∧
  (exists_ ds k = true →
   ∃ fd, get ds k = Ok fd ∧ writable fd = false ∧
         handle_write fd data = Raise IOError).
Proof.
  split; intros [stored Hk]%bool_decide_eq_true; simpl; rewrite Hk;
    by eexists.
Qed.

Lemma C9_read_handle_rejects_write_witness :
  let k : image_key := ("demo_project", "welcome", "jpg", None)%string in
  let fs := {| files := {[ k := [Byte.x01; Byte.x02] ]} |} in
  let ds := {| records := {[ k := [Byte.x01; Byte.x02] ]} |} in
  (∃ fd, get fs k = Ok fd ∧ writable fd = false ∧
         handle_write fd [Byte.xff] = Raise IOError) ∧
  (∃ fd, get ds k = Ok fd ∧ writable fd = false ∧
         handle_write fd [Byte.xff] = Raise IOError).
Proof.
  intros k fs ds.
  destruct (C9_read_handle_rejects_write fs ds k [Byte.xff]) as [Hfs Hds].
  split; [apply Hfs | apply Hds]; reflexivity.
Defined.

(** ** Binary64 arithmetic *)

(** *** Mantissa digits and shifts *)

Lemma digits2_pos_bounds (p : positive) :
  2 ^ (Z.pos (digits2_pos p) - 1) ≤ Z.pos p < 2 ^ Z.pos (digits2_pos p).
Proof.
  induction p as [p IH | p IH |]; simpl digits2_pos.
  - rewrite Pos2Z.inj_succ.
    replace (Z.succ (Z.pos (digits2_pos p)) - 1) with
      (Z.succ (Z.pos (digits2_pos p) - 1)) by lia.
    rewrite !Z.pow_succ_r by lia. lia.
  - rewrite Pos2Z.inj_succ.
    replace (Z.succ (Z.pos (digits2_pos p)) - 1) with
      (Z.succ (Z.pos (digits2_pos p) - 1)) by lia.
    rewrite !Z.pow_succ_r by lia. lia.
  - simpl. lia.
Qed.

(** The digit count is determined by the enclosing powers of two. *)
Lemma digits2_pos_unique (p : positive) (d : Z) :
  2 ^ (d - 1) ≤ Z.pos p < 2 ^ d → Z.pos (digits2_pos p) = d.
Proof.
  intros [Hlo Hhi]. pose proof (digits2_pos_bounds p) as [Hlo' Hhi'].
  assert (0 < d). { destruct (Z_lt_le_dec 0 d); [done|]. 
    rewrite Z.pow_neg_r in Hlo by lia. 
    assert (2 ^ d ≤ 2 ^ 0) by (apply Z.pow_le_mono_r; lia). simpl in *. lia. }
  destruct (Z.lt_trichotomy (Z.pos (digits2_pos p)) d) as [Hlt | [Heq | Hgt]];
    [|done|].
  - assert (2 ^ Z.pos (digits2_pos p) ≤ 2 ^ (d - 1))
      by (apply Z.pow_le_mono_r; lia). lia.
  - assert (2 ^ d ≤ 2 ^ (Z.pos (digits2_pos p) - 1))
      by (apply Z.pow_le_mono_r; lia). lia.
Qed.

Lemma shr_1_loc_ok N U mrs :
  0 < U → loc_ok N U mrs → loc_ok N (2 * U) (shr_1 mrs).
Proof.
  intros HU. destruct mrs as [m r s]. unfold loc_ok. simpl.
  intros [Hm Hloc].
  destruct m as [|[p|p|]|p]; try lia; destruct r, s; simpl; split; lia.
Qed.

Lemma iter_shr_1_loc_ok N (n : positive) : ∀ U mrs,
  0 < U → loc_ok N U mrs →
  loc_ok N (2 ^ Z.pos n * U) (SpecFloat.iter_pos shr_1 n mrs).
Proof.
  induction n as [n IH | n IH |]; intros U mrs HU Hloc; simpl SpecFloat.iter_pos.
  - replace (2 ^ Z.pos n~1 * U) with (2 ^ Z.pos n * (2 ^ Z.pos n * (2 * U))).
    + assert (0 < 2 ^ Z.pos n) by (apply Z.pow_pos_nonneg; lia).
      apply IH; [nia|]. apply IH; [lia|]. by apply shr_1_loc_ok.
    + rewrite (Pos2Z.inj_xI n), Z.pow_add_r, Z.pow_mul_r by lia.
      change (2 ^ 2) with 4. change (2 ^ 1) with 2.
      replace (4 ^ Z.pos n) with (2 ^ Z.pos n * 2 ^ Z.pos n); [ring|].
      rewrite <- Z.pow_mul_l. reflexivity.
  - replace (2 ^ Z.pos n~0 * U) with (2 ^ Z.pos n * (2 ^ Z.pos n * U)).
    + assert (0 < 2 ^ Z.pos n) by (apply Z.pow_pos_nonneg; lia).
      apply IH; [nia|]. by apply IH.
    + rewrite (Pos2Z.inj_xO n), Z.pow_mul_r by lia.
      change (2 ^ 2) with 4.
      replace (4 ^ Z.pos n) with (2 ^ Z.pos n * 2 ^ Z.pos n); [ring|].
      rewrite <- Z.pow_mul_l. reflexivity.
  - change (2 ^ 1 * U) with (2 * U). by apply shr_1_loc_ok.
Qed.


(** *** Rounding to nearest even *)

Lemma fexp_normal (x : Z) : -1074 ≤ x - 53 → fexp 53 1024 x = x - 53.
Proof. unfold fexp, emin. lia. Qed.

Lemma loc_ok_enclosed N U mrs :
  loc_ok N U mrs → 0 < U →
  0 ≤ shr_m mrs ∧ 2 * shr_m mrs * U ≤ 2 * N < (2 * shr_m mrs + 2) * U.
Proof.
  unfold loc_ok. destruct (shr_r mrs), (shr_s mrs); lia.
Qed.

Lemma shr_loc_ok N U mrs e n :
  0 < U → 0 ≤ n → loc_ok N U mrs →
  loc_ok N (2 ^ n * U) (shr mrs e n).1 ∧ (shr mrs e n).2 = e + n.
Proof.
  intros HU Hn Hloc. destruct n as [|n|n]; simpl; [| |lia].
  - split; [|lia]. by destruct U.
  - split; [|done]. by apply iter_shr_1_loc_ok.
Qed.

Lemma round_nearest_even_error N U mrs :
  0 < U → loc_ok N U mrs →
  let m := round_nearest_even (shr_m mrs) (loc_of_shr_record mrs) in
  shr_m mrs ≤ m ≤ shr_m mrs + 1 ∧ Z.abs (2 * m * U - 2 * N) ≤ U.
Proof.
  intros HU. destruct mrs as [m r s]. unfold loc_ok. simpl.
  intros [Hm Hloc]. destruct r, s; simpl; try destruct (Z.even m); lia.
Qed.

Lemma shr_fexp_exact_normal (m : positive) (e : Z) :
  2 ^ 52 ≤ Z.pos m < 2 ^ 53 → -1074 ≤ e →
  shr_fexp 53 1024 (Z.pos m) e loc_Exact
  = ({| shr_m := Z.pos m; shr_r := false; shr_s := false |}, e).
Proof.
  intros Hm He. unfold shr_fexp. simpl Zdigits2.
  rewrite (digits2_pos_unique m 53) by (change (53 - 1) with 52; lia).
  rewrite fexp_normal by lia.
  replace (53 + e - 53 - e) with 0 by lia. reflexivity.
Qed.

Lemma shr_fexp_exact_carry (e : Z) :
  -1074 ≤ e →
  shr_fexp 53 1024 (2 ^ 53) e loc_Exact
  = ({| shr_m := 2 ^ 52; shr_r := false; shr_s := false |}, e + 1).
Proof.
  intros He. unfold shr_fexp.
  replace (Zdigits2 (2 ^ 53)) with 54 by reflexivity.
  rewrite fexp_normal by lia.
  replace (54 + e - 53 - e) with 1 by lia. reflexivity.
Qed.

(** Rounding to nearest even in the normal range: the result is a
    normalised finite number at most half a unit in the last place away
    from the exact value [N / U * 2 ^ ex]. *)
Lemma binary_round_aux_normal sx mx ex lx N U :
  0 < U →
  loc_ok N U (shr_record_of_loc mx lx) →
  53 ≤ Zdigits2 mx →
  -1074 ≤ ex + (Zdigits2 mx - 53) →
  ex + (Zdigits2 mx - 53) + 1 ≤ 971 →
  ∃ m e,
    binary_round_aux 53 1024 sx mx ex lx = S754_finite sx m e ∧
    2 ^ 52 ≤ Z.pos m < 2 ^ 53 ∧
    ex + (Zdigits2 mx - 53) ≤ e ≤ ex + (Zdigits2 mx - 53) + 1 ∧
    Z.abs (2 * (Z.pos m * 2 ^ (e - ex)) * U - 2 * N) ≤ 2 ^ (e - ex) * U.
Proof.
  intros HU Hloc Hd Hlo Hhi.
  set (d := Zdigits2 mx) in *. set (n := d - 53) in *.
  assert (0 ≤ n) as Hn by lia.
  assert (Hmx : 2 ^ (d - 1) ≤ mx < 2 ^ d).
  { pose proof (loc_ok_enclosed _ _ _ Hloc HU) as [H0 _].
    replace (shr_m (shr_record_of_loc mx lx)) with mx in H0
      by (by destruct lx as [|[]]).
    subst d. destruct mx as [|p|p]; simpl in *; try lia.
    apply digits2_pos_bounds. }
  unfold binary_round_aux.
  unfold shr_fexp at 1.
  fold d. rewrite fexp_normal by lia.
  replace (d + ex - 53 - ex) with n by lia.
  destruct (shr_loc_ok N U (shr_record_of_loc mx lx) ex n HU Hn Hloc)
    as [Hloc' He'].
  destruct (shr (shr_record_of_loc mx lx) ex n) as [mrs' e']. simpl in *.
  subst e'.
  assert (0 < 2 ^ n) as HP by (apply Z.pow_pos_nonneg; lia).
  assert (0 < 2 ^ n * U) as HU' by nia.
  pose proof (loc_ok_enclosed _ _ _ Hloc' HU') as (Hm0 & Hm1 & Hm2).
  pose proof (loc_ok_enclosed _ _ _ Hloc HU) as (_ & Hx1 & Hx2).
  replace (shr_m (shr_record_of_loc mx lx)) with mx in Hx1, Hx2
    by (by destruct lx as [|[]]).
  assert (Hm' : 2 ^ 52 ≤ shr_m mrs' < 2 ^ 53).
  { assert (2 ^ (d - 1) = 2 ^ 52 * 2 ^ n) as Hp1
      by (rewrite <- Z.pow_add_r by lia; f_equal; lia).
    assert (2 ^ d = 2 ^ 53 * 2 ^ n) as Hp2
      by (rewrite <- Z.pow_add_r by lia; f_equal; lia).
    rewrite Hp1, Hp2 in Hmx.
    set (P := 2 ^ n) in *. set (m' := shr_m mrs') in *.
    assert (m' * P < mx + 1) by nia.
    assert (mx < (m' + 1) * P) by nia.
    assert (2 ^ 52 * P < (m' + 1) * P) as H1 by lia.
    assert (m' * P < 2 ^ 53 * P) as H2 by lia.
    apply Z.mul_lt_mono_pos_r in H1, H2; lia. }
  pose proof (round_nearest_even_error _ _ _ HU' Hloc') as [Hr1 Hr2].
  set (m2 := round_nearest_even (shr_m mrs') (loc_of_shr_record mrs')) in *.
  destruct (Z.eq_dec m2 (2 ^ 53)) as [Hc | Hc].
  - rewrite Hc, shr_fexp_exact_carry by lia. simpl shr_m.
    exists (Z.to_pos (2 ^ 52)), (ex + n + 1).
    replace (ex + n + 1 <=? 1024 - 53) with true by lia.
    split; [reflexivity|]. split; [simpl; lia|]. split; [lia|].
    replace (ex + n + 1 - ex) with (n + 1) by lia.
    rewrite Z.pow_add_r by lia. change (2 ^ 1) with 2.
    change (Z.pos (Z.to_pos (2 ^ 52))) with (2 ^ 52).
    replace (2 * (2 ^ 52 * (2 ^ n * 2)) * U) with (2 * 2 ^ 53 * (2 ^ n * U))
      by (change (2 ^ 53) with (2 * 2 ^ 52); ring).
    rewrite <- Hc. lia.
  - destruct m2 as [|p|p] eqn:Hm2eq; [lia| |lia].
    rewrite shr_fexp_exact_normal by lia. simpl shr_m.
    exists p, (ex + n).
    replace (ex + n <=? 1024 - 53) with true by lia.
    split; [reflexivity|]. split; [lia|]. split; [lia|].
    replace (ex + n - ex) with n by lia.
    replace (2 * (Z.pos p * 2 ^ n) * U) with (2 * Z.pos p * (2 ^ n * U))
      by ring.
    lia.
Qed.


(** *** Conversion, division and multiplication on mantissas *)

Lemma binary_round_aux_exact sx (m : positive) (e : Z) :
  2 ^ 52 ≤ Z.pos m < 2 ^ 53 → -1074 ≤ e ≤ 971 →
  binary_round_aux 53 1024 sx (Z.pos m) e loc_Exact = S754_finite sx m e.
Proof.
  intros Hm He. unfold binary_round_aux.
  rewrite shr_fexp_exact_normal by lia. simpl round_nearest_even.
  rewrite shr_fexp_exact_normal by lia. simpl shr_m.
  by replace (e <=? 1024 - 53) with true by lia.
Qed.

Lemma iter_xO_pow (k p : positive) :
  Z.pos (Pos.iter xO p k) = Z.pos p * 2 ^ Z.pos k.
Proof.
  induction k as [|k IH] using Pos.peano_ind.
  - simpl. lia.
  - rewrite Pos.iter_succ, Pos2Z.inj_xO, IH, Pos2Z.inj_succ, Z.pow_succ_r by lia.
    ring.
Qed.

(** Integers below [2 ^ 53] convert exactly. *)
Lemma binary_round_int (sx : bool) (p : positive) :
  Z.pos p < 2 ^ 53 →
  ∃ m e, binary_round 53 1024 sx p 0 = S754_finite sx m e ∧
         2 ^ 52 ≤ Z.pos m < 2 ^ 53 ∧ -52 ≤ e ≤ 0 ∧
         Z.pos m = Z.pos p * 2 ^ (- e).
Proof.
  intros Hp. pose proof (digits2_pos_bounds p) as [Hlo Hhi].
  set (d := Z.pos (digits2_pos p)) in *.
  assert (1 ≤ d) by (subst d; lia).
  assert (d ≤ 53).
  { destruct (Z_le_gt_dec d 53); [done|].
    assert (2 ^ 53 ≤ 2 ^ (d - 1)) by (apply Z.pow_le_mono_r; lia). lia. }
  unfold binary_round, shl_align. fold d.
  rewrite fexp_normal by lia.
  replace (d + 0 - 53 - 0) with (d - 53) by lia.
  destruct (d - 53) as [|q|q] eqn:Hq; [|lia|].
  - rewrite binary_round_aux_exact by (replace d with 53 in * by lia; lia).
    exists p, 0. replace d with 53 in * by lia. simpl (- 0). simpl (2 ^ 0).
    repeat split; try lia. 
  - assert (Z.pos (Pos.iter xO p q) = Z.pos p * 2 ^ (53 - d)) as Hm.
    { transitivity (Z.pos p * 2 ^ Z.pos q); [exact (iter_xO_pow q p) | do 2 f_equal; lia]. }
    assert (2 ^ 52 ≤ Z.pos p * 2 ^ (53 - d) < 2 ^ 53).
    { assert (2 ^ 52 = 2 ^ (d - 1) * 2 ^ (53 - d)) as ->
        by (rewrite <- Z.pow_add_r by lia; f_equal; lia).
      assert (2 ^ 53 = 2 ^ d * 2 ^ (53 - d)) as ->
        by (rewrite <- Z.pow_add_r by lia; f_equal; lia).
      assert (0 < 2 ^ (53 - d)) by (apply Z.pow_pos_nonneg; lia).
      split; [apply Z.mul_le_mono_nonneg_r | apply Z.mul_lt_mono_pos_r]; lia. }
    rewrite binary_round_aux_exact by lia.
    exists (Pos.iter xO p q), (d + 0 - 53).
    split; [reflexivity|]. rewrite Hm. split; [lia|]. split; [lia|].
    do 2 f_equal. lia.
Qed.

(** The location computed by the division describes the remainder. *)
Lemma new_location_loc_ok (q r U : Z) :
  0 < U → 0 ≤ q → 0 ≤ r < U →
  loc_ok (q * U + r) U (shr_record_of_loc q (new_location U r)).
Proof.
  intros HU Hq Hr. unfold new_location, new_location_even, new_location_odd.
  destruct (Z.even U) eqn:Hev.
  - destruct (Z.eqb_spec r 0) as [-> | Hr0]; [unfold loc_ok; simpl; lia|].
    destruct (Z.compare_spec (2 * r) U); unfold loc_ok; simpl; lia.
  - destruct (Z.eqb_spec r 0) as [-> | Hr0]; [unfold loc_ok; simpl; lia|].
    assert (Z.odd U = true) as Hodd by (by rewrite <- Z.negb_even, Hev).
    apply Z.odd_spec in Hodd as [k Hk].
    destruct (Z.compare_spec (2 * r + 1) U); unfold loc_ok; simpl; lia.
Qed.

(** Division of two normalised numbers: the quotient is normalised and
    within half a unit in the last place of the exact quotient. *)
Lemma SFdiv_normal (ma mb : positive) (ea eb : Z) :
  2 ^ 52 ≤ Z.pos ma < 2 ^ 53 → 2 ^ 52 ≤ Z.pos mb < 2 ^ 53 →
  -400 ≤ ea ≤ 400 → -400 ≤ eb ≤ 400 →
  ∃ m e,
    SFdiv 53 1024 (S754_finite false ma ea) (S754_finite false mb eb)
    = S754_finite false m e ∧
    2 ^ 52 ≤ Z.pos m < 2 ^ 53 ∧
    ea - eb - 53 ≤ e ≤ ea - eb - 53 + 2 ∧
    2 ^ 53 * Z.abs (Z.pos m * 2 ^ (e - (ea - eb - 53)) * Z.pos mb
                    - Z.pos ma * 2 ^ 53)
    ≤ Z.pos m * 2 ^ (e - (ea - eb - 53)) * Z.pos mb.
Proof.
  intros Hma Hmb Hea Heb. unfold SFdiv, SFdiv_core_binary. simpl Zdigits2.
  rewrite (digits2_pos_unique ma 53), (digits2_pos_unique mb 53)
    by (change (53 - 1) with 52; lia).
  rewrite fexp_normal by lia.
  replace (Z.min (53 + ea - (53 + eb) - 53) (ea - eb)) with (ea - eb - 53)
    by lia.
  replace (ea - eb - (ea - eb - 53)) with 53 by lia.
  change (xorb false false) with false.
  set (N := Z.shiftl (Z.pos ma) 53).
  assert (N = Z.pos ma * 2 ^ 53) as HN by (subst N; by rewrite Z.shiftl_mul_pow2).
  pose proof (Z_div_mod N (Z.pos mb) ltac:(lia)) as Hdiv.
  destruct (Z.div_eucl N (Z.pos mb)) as [q r]. destruct Hdiv as [Hqr Hr].
  assert (2 ^ 52 ≤ q < 2 ^ 54) as Hq.
  { change (2 ^ 54) with (2 * 2 ^ 53). change (2 ^ 53) with (2 * 2 ^ 52) in *.
    nia. }
  assert (loc_ok N (Z.pos mb) (shr_record_of_loc q (new_location (Z.pos mb) r)))
    as Hloc.
  { rewrite Hqr, (Z.mul_comm (Z.pos mb) q).
    apply new_location_loc_ok; lia. }
  assert (53 ≤ Zdigits2 q ≤ 54) as Hdq.
  { destruct q as [|q|q]; try lia. simpl.
    pose proof (digits2_pos_bounds q) as [Hl Hh].
    split.
    - destruct (Z_le_gt_dec 53 (Z.pos (digits2_pos q))); [done|].
      assert (2 ^ Z.pos (digits2_pos q) ≤ 2 ^ 52)
        by (apply Z.pow_le_mono_r; lia). lia.
    - destruct (Z_le_gt_dec (Z.pos (digits2_pos q)) 54); [done|].
      assert (2 ^ 54 ≤ 2 ^ (Z.pos (digits2_pos q) - 1))
        by (apply Z.pow_le_mono_r; lia). lia. }
  destruct (binary_round_aux_normal false q (ea - eb - 53)
              (new_location (Z.pos mb) r) N (Z.pos mb))
    as (m & e & Hres & Hm & He & Herr); try lia; try done.
  exists m, e. split; [done|]. split; [done|]. split; [lia|].
  rewrite <- HN.
  assert (0 < 2 ^ (e - (ea - eb - 53))) by (apply Z.pow_pos_nonneg; lia).
  set (W := 2 ^ (e - (ea - eb - 53))) in *.
  assert (2 ^ 52 * (W * Z.pos mb) ≤ Z.pos m * (W * Z.pos mb))
    by (apply Z.mul_le_mono_nonneg_r; lia).
  change (2 ^ 53) with (2 * 2 ^ 52). lia.
Qed.

(** Multiplication of two normalised numbers. *)
Lemma SFmul_normal (ma mb : positive) (ea eb : Z) :
  2 ^ 52 ≤ Z.pos ma < 2 ^ 53 → 2 ^ 52 ≤ Z.pos mb < 2 ^ 53 →
  -400 ≤ ea ≤ 400 → -400 ≤ eb ≤ 400 →
  ∃ m e,
    SFmul 53 1024 (S754_finite false ma ea) (S754_finite false mb eb)
    = S754_finite false m e ∧
    2 ^ 52 ≤ Z.pos m < 2 ^ 53 ∧
    ea + eb + 52 ≤ e ≤ ea + eb + 54 ∧
    2 ^ 53 * Z.abs (Z.pos m * 2 ^ (e - (ea + eb)) - Z.pos ma * Z.pos mb)
    ≤ Z.pos m * 2 ^ (e - (ea + eb)).
Proof.
  intros Hma Hmb Hea Heb. unfold SFmul.
  change (xorb false false) with false.
  assert (2 ^ 104 ≤ Z.pos (ma * mb) < 2 ^ 106) as Hp.
  { rewrite Pos2Z.inj_mul.
    change (2 ^ 104) with (2 ^ 52 * 2 ^ 52).
    change (2 ^ 106) with (2 ^ 53 * 2 ^ 53). nia. }
  assert (105 ≤ Zdigits2 (Z.pos (ma * mb)) ≤ 106) as Hd.
  { simpl. pose proof (digits2_pos_bounds (ma * mb)) as [Hl Hh].
    set (d := Z.pos (digits2_pos (ma * mb))) in *.
    split.
    - destruct (Z_le_gt_dec 105 d); [done|].
      assert (2 ^ d ≤ 2 ^ 104) by (apply Z.pow_le_mono_r; lia). lia.
    - destruct (Z_le_gt_dec d 106); [done|].
      assert (2 ^ 106 ≤ 2 ^ (d - 1)) by (apply Z.pow_le_mono_r; lia). lia. }
  destruct (binary_round_aux_normal false (Z.pos (ma * mb)) (ea + eb)
              loc_Exact (Z.pos (ma * mb)) 1)
    as (m & e & Hres & Hm & He & Herr); try lia.
  { unfold loc_ok. simpl. lia. }
  exists m, e. split; [done|]. split; [done|]. split; [lia|].
  rewrite <- Pos2Z.inj_mul.
  assert (0 < 2 ^ (e - (ea + eb))) by (apply Z.pow_pos_nonneg; lia).
  set (W := 2 ^ (e - (ea + eb))) in *.
  assert (2 ^ 52 * W ≤ Z.pos m * W)
    by (apply Z.mul_le_mono_nonneg_r; lia).
  change (2 ^ 53) with (2 * 2 ^ 52). lia.
Qed.


(** *** From mantissas to rational values *)

Lemma pow2_pos e : (0 < pow2 e)%Q.
Proof. apply Qpower_0_lt. reflexivity. Qed.

Lemma pow2_add a b : (pow2 (a + b) == pow2 a * pow2 b)%Q.
Proof. apply Qpower_plus. discriminate. Qed.

Lemma pow2_Z n : 0 ≤ n → (pow2 n == inject_Z (2 ^ n))%Q.
Proof. intros Hn. unfold pow2. by rewrite Zpower_Qpower. Qed.

Lemma pow2_sub_Z a b : b ≤ a → (pow2 a == inject_Z (2 ^ (a - b)) * pow2 b)%Q.
Proof.
  intros H. rewrite <- pow2_Z by lia. rewrite <- pow2_add.
  by replace (a - b + b) with a by lia.
Qed.

(** From the integer error bound of a rounding to its rational form: the
    exact value is [N / U * 2 ^ ex], the rounded one [V * 2 ^ ex]. *)
Lemma rel_error_Q (V N U ex : Z) :
  0 < U →
  2 ^ 53 * Z.abs (V * U - N) ≤ V * U →
  (Qabs (inject_Z V * pow2 ex - inject_Z N / inject_Z U * pow2 ex)
   <= inject_Z V * pow2 ex * roundoff)%Q.
Proof.
  intros HU Herr.
  assert (0 < inject_Z U)%Q as HUq by (rewrite <- (Zlt_Qlt 0); lia).
  pose proof (pow2_pos ex) as HP.
  assert (inject_Z V * pow2 ex - inject_Z N / inject_Z U * pow2 ex
          == (inject_Z (V * U - N) / inject_Z U) * pow2 ex)%Q as ->.
  { unfold Z.sub. rewrite inject_Z_plus, inject_Z_mult, inject_Z_opp. field. lra. }
  rewrite Qabs_Qmult, (Qabs_pos (pow2 ex)) by lra.
  rewrite <- (Qmult_assoc _ (pow2 ex) roundoff), (Qmult_comm (pow2 ex) roundoff), Qmult_assoc.
  apply Qmult_le_compat_r; [|lra].
  unfold Qdiv. rewrite Qabs_Qmult, Qabs_Qinv, (Qabs_pos (inject_Z U)) by lra.
  apply Qle_shift_div_r; [done|].
  assert (Qabs (inject_Z (V * U - N)) == inject_Z (Z.abs (V * U - N)))%Q as ->.
  { destruct (Z_le_gt_dec 0 (V * U - N)).
    - rewrite Z.abs_eq, Qabs_pos by (try rewrite <- (Zle_Qle 0); lia). reflexivity.
    - rewrite Z.abs_neq, Qabs_neg, inject_Z_opp by
        (try (change 0%Q with (inject_Z 0); rewrite <- Zle_Qle); lia).
      reflexivity. }
  rewrite Zle_Qle, !inject_Z_mult in Herr.
  change (inject_Z (2 ^ 53)) with (9007199254740992 # 1)%Q in Herr.
  unfold roundoff. lra.
Qed.


(** *** The float operations of [_calc_size] *)

Lemma F2Q_pos (m : positive) (e : Z) :
  (0 < F2Q (S754_finite false m e))%Q.
Proof.
  simpl. apply Qmult_lt_0_compat; [|apply pow2_pos].
  by rewrite <- (Zlt_Qlt 0).
Qed.

(** [float(n)] is exact for [0 < n < 2 ^ 53]. *)
Lemma of_int_exact (n : Z) :
  0 < n < 2 ^ 53 →
  ∃ m e, PyFloat.of_int n = Ok (S754_finite false m e) ∧
         2 ^ 52 ≤ Z.pos m < 2 ^ 53 ∧ -52 ≤ e ≤ 0 ∧
         (F2Q (S754_finite false m e) == inject_Z n)%Q.
Proof.
  intros Hn. destruct n as [|p|p]; try lia.
  destruct (binary_round_int false p) as (m & e & Hr & Hm & He & Hv); [lia|].
  exists m, e. unfold PyFloat.of_int. simpl binary_normalize.
  change PyFloat.prec with 53. change PyFloat.emax with 1024.
  rewrite Hr. split; [done|]. split; [done|]. split; [done|].
  simpl. rewrite Hv, inject_Z_mult, <- pow2_Z by lia.
  rewrite <- Qmult_assoc, <- pow2_add.
  replace (- e + e) with 0 by lia. change (pow2 0) with 1%Q. ring.
Qed.

Lemma of_int_zero : PyFloat.of_int 0 = Ok (S754_zero false).
Proof. reflexivity. Qed.

(** The quotient of two normalised numbers, with its relative error. *)
Lemma SFdiv_value (ma mb : positive) (ea eb : Z) :
  2 ^ 52 ≤ Z.pos ma < 2 ^ 53 → 2 ^ 52 ≤ Z.pos mb < 2 ^ 53 →
  -400 ≤ ea ≤ 400 → -400 ≤ eb ≤ 400 →
  ∃ m e,
    SFdiv 53 1024 (S754_finite false ma ea) (S754_finite false mb eb)
    = S754_finite false m e ∧
    2 ^ 52 ≤ Z.pos m < 2 ^ 53 ∧
    ea - eb - 53 ≤ e ≤ ea - eb - 53 + 2 ∧
    (Qabs (F2Q (S754_finite false m e)
           - F2Q (S754_finite false ma ea) / F2Q (S754_finite false mb eb))
     <= F2Q (S754_finite false m e) * roundoff)%Q.
Proof.
  intros Hma Hmb Hea Heb.
  destruct (SFdiv_normal ma mb ea eb) as (m & e & Hr & Hm & He & Herr);
    try done.
  exists m, e. split; [done|]. split; [done|]. split; [done|].
  apply rel_error_Q with (ex := ea - eb - 53) in Herr; [|lia].
  simpl F2Q.
  pose proof (pow2_pos ea). pose proof (pow2_pos eb).
  pose proof (pow2_pos (ea - eb - 53)) as HP.
  assert (0 < inject_Z (Z.pos mb))%Q by (by rewrite <- (Zlt_Qlt 0)).
  assert (inject_Z (Z.pos m) * pow2 e
          == inject_Z (Z.pos m * 2 ^ (e - (ea - eb - 53)))
             * pow2 (ea - eb - 53))%Q as Hv.
  { rewrite inject_Z_mult, (pow2_sub_Z e (ea - eb - 53)) by lia. ring. }
  assert (inject_Z (Z.pos ma) * pow2 ea / (inject_Z (Z.pos mb) * pow2 eb)
          == inject_Z (Z.pos ma * 2 ^ 53) / inject_Z (Z.pos mb)
             * pow2 (ea - eb - 53))%Q as Hx.
  { rewrite inject_Z_mult, <- pow2_Z by lia.
    assert (pow2 ea == pow2 53 * pow2 (ea - eb - 53) * pow2 eb)%Q as ->.
    { rewrite <- !pow2_add. by replace (53 + (ea - eb - 53) + eb) with ea by lia. }
    pose proof (pow2_pos 53). field. split; lra. }
  by rewrite Hv, Hx.
Qed.

Lemma SFmul_value (ma mb : positive) (ea eb : Z) :
  2 ^ 52 ≤ Z.pos ma < 2 ^ 53 → 2 ^ 52 ≤ Z.pos mb < 2 ^ 53 →
  -400 ≤ ea ≤ 400 → -400 ≤ eb ≤ 400 →
  ∃ m e,
    SFmul 53 1024 (S754_finite false ma ea) (S754_finite false mb eb)
    = S754_finite false m e ∧
    2 ^ 52 ≤ Z.pos m < 2 ^ 53 ∧
    ea + eb + 52 ≤ e ≤ ea + eb + 54 ∧
    (Qabs (F2Q (S754_finite false m e)
           - F2Q (S754_finite false ma ea) * F2Q (S754_finite false mb eb))
     <= F2Q (S754_finite false m e) * roundoff)%Q.
Proof.
  intros Hma Hmb Hea Heb.
  destruct (SFmul_normal ma mb ea eb) as (m & e & Hr & Hm & He & Herr);
    try done.
  exists m, e. split; [done|]. split; [done|]. split; [done|].
  replace (Z.pos m * 2 ^ (e - (ea + eb)))
    with (Z.pos m * 2 ^ (e - (ea + eb)) * 1) in Herr by lia.
  apply rel_error_Q with (ex := ea + eb) in Herr; [|lia].
  simpl F2Q.
  assert (inject_Z (Z.pos m) * pow2 e
          == inject_Z (Z.pos m * 2 ^ (e - (ea + eb))) * pow2 (ea + eb))%Q as Hv.
  { rewrite inject_Z_mult, (pow2_sub_Z e (ea + eb)) by lia. ring. }
  assert (inject_Z (Z.pos ma) * pow2 ea * (inject_Z (Z.pos mb) * pow2 eb)
          == inject_Z (Z.pos ma * Z.pos mb) / inject_Z 1 * pow2 (ea + eb))%Q
    as Hx.
  { rewrite inject_Z_mult, pow2_add. field. }
  by rewrite Hv, Hx.
Qed.

(** [int(f)] is the floor of a positive float. *)
Lemma to_int_floor (m : positive) (e : Z) :
  PyFloat.to_int (S754_finite false m e)
  = Ok (Qfloor (F2Q (S754_finite false m e))).
Proof.
  unfold PyFloat.to_int. f_equal. simpl F2Q.
  destruct e as [|p|p].
  - change (pow2 0) with 1%Q. rewrite Qmult_1_r, Qfloor_Z. reflexivity.
  - rewrite Z.shiftl_mul_pow2 by lia.
    rewrite pow2_Z, <- inject_Z_mult, Qfloor_Z by lia. reflexivity.
  - rewrite Z.shiftr_div_pow2 by lia. rewrite Zdiv_Qdiv.
    apply Qfloor_comp. unfold Qdiv.
    apply Qmult_comp; [reflexivity|].
    rewrite <- pow2_Z by lia. unfold pow2.
    rewrite <- Qpower_opp. reflexivity.
Qed.

(** On normalised numbers [SFltb] is the order of the values. *)
Lemma SFltb_normal (m1 m2 : positive) (e1 e2 : Z) :
  2 ^ 52 ≤ Z.pos m1 < 2 ^ 53 → 2 ^ 52 ≤ Z.pos m2 < 2 ^ 53 →
  if SFltb (S754_finite false m1 e1) (S754_finite false m2 e2)
  then (F2Q (S754_finite false m1 e1) < F2Q (S754_finite false m2 e2))%Q
  else (F2Q (S754_finite false m2 e2) <= F2Q (S754_finite false m1 e1))%Q.
Proof.
  intros H1 H2. unfold SFltb, SFcompare. simpl F2Q.
  assert (∀ (a b : positive) (x y : Z),
            2 ^ 52 ≤ Z.pos a < 2 ^ 53 → 2 ^ 52 ≤ Z.pos b < 2 ^ 53 → x < y →
            (inject_Z (Z.pos a) * pow2 x < inject_Z (Z.pos b) * pow2 y)%Q)
    as Hexp.
  { intros a b x y Ha Hb Hxy.
    rewrite (pow2_sub_Z y x), Qmult_assoc, <- inject_Z_mult by lia.
    apply Qmult_lt_compat_r; [apply pow2_pos|].
    rewrite <- Zlt_Qlt.
    assert (2 ^ 1 ≤ 2 ^ (y - x)) by (apply Z.pow_le_mono_r; lia).
    change (2 ^ 1) with 2 in *. change (2 ^ 53) with (2 ^ 52 * 2) in *. nia. }
  destruct (Z.compare_spec e1 e2) as [-> | Hlt | Hgt].
  - change (Pos.compare_cont Eq m1 m2) with (Z.pos m1 ?= Z.pos m2).
    pose proof (pow2_pos e2).
    destruct (Z.compare_spec (Z.pos m1) (Z.pos m2)) as [Heq | Hl | Hg].
    + rewrite Heq. apply Qle_refl.
    + apply Qmult_lt_compat_r; [done|]. by rewrite <- Zlt_Qlt.
    + apply Qmult_le_compat_r; [|lra]. rewrite <- Zle_Qle. lia.
  - by apply Hexp.
  - apply Qlt_le_weak. by apply Hexp.
Qed.


(** *** Floors of nearby values *)

Lemma Qfloor_lub (x : Q) (n : Z) : (x < inject_Z (n + 1))%Q → Qfloor x ≤ n.
Proof.
  intros Hx. pose proof (Qfloor_le x) as Hf.
  assert (inject_Z (Qfloor x) < inject_Z (n + 1))%Q as H
    by (eapply Qle_lt_trans; eauto).
  rewrite <- Zlt_Qlt in H. lia.
Qed.

Lemma Qfloor_glb (x : Q) (n : Z) : (inject_Z n <= x)%Q → n ≤ Qfloor x.
Proof.
  intros Hx. rewrite <- (Qfloor_Z n). by apply Qfloor_resp_le.
Qed.

(** A rational with a small denominator that is not an integer stays
    away from the integers. *)
Lemma fraction_gap (X : Q) (den k n : Z) :
  0 < den ≤ 2 ^ 24 →
  (X * inject_Z den == inject_Z k)%Q →
  (inject_Z n < X)%Q →
  (inject_Z n + (1 # 16777216) <= X)%Q.
Proof.
  intros Hden Hk Hn.
  assert (0 < inject_Z den)%Q as Hd by (rewrite <- (Zlt_Qlt 0); lia).
  assert (inject_Z den <= 16777216)%Q as Hd'
    by (change 16777216%Q with (inject_Z (2 ^ 24)); rewrite <- Zle_Qle; lia).
  assert (inject_Z (n * den) < inject_Z k)%Q as Hlt.
  { rewrite inject_Z_mult, <- Hk. by apply Qmult_lt_compat_r. }
  rewrite <- Zlt_Qlt in Hlt.
  assert (inject_Z (n * den + 1) <= inject_Z k)%Q as Hle
    by (rewrite <- Zle_Qle; lia).
  rewrite inject_Z_plus, inject_Z_mult, <- Hk in Hle.
  assert (1 <= (X - inject_Z n) * inject_Z den)%Q as H1.
  { change (inject_Z 1) with 1%Q in Hle. lra. }
  assert ((X - inject_Z n) * inject_Z den <= (X - inject_Z n) * 16777216)%Q
    as H2 by (apply Qmult_le_l; [lra|done]).
  lra.
Qed.

(** The floor of a value [p] within two roundings of [X]. *)
Lemma floor_close (p X : Q) (den k : Z) :
  ((1 - roundoff) * ((1 - roundoff) * p) <= X)%Q → (X <= (1 + roundoff) * ((1 + roundoff) * p))%Q →
  (0 <= X <= 16777216)%Q →
  0 < den ≤ 2 ^ 24 →
  (X * inject_Z den == inject_Z k)%Q →
  Qfloor X - 1 ≤ Qfloor p ≤ Qfloor X ∧
  (¬ (X == inject_Z (Qfloor X))%Q → Qfloor p = Qfloor X).
Proof.
  intros Hlo Hhi HX Hden Hk. unfold roundoff in *.
  pose proof (Qfloor_le X) as Hn1. pose proof (Qlt_floor X) as Hn2.
  set (n := Qfloor X) in *. rewrite inject_Z_plus in Hn2.
  change (inject_Z 1) with 1%Q in Hn2.
  assert (X - (1 # 134217728) <= p <= X + (1 # 134217728))%Q as Hp
    by (split; lra).
  assert (¬ (X == inject_Z n)%Q → inject_Z n <= p < inject_Z (n + 1))%Q
    as Hni.
  { intros Hne. assert (inject_Z n < X)%Q as Hgt.
    { apply Qle_lteq in Hn1 as [H|H]; [done|]. by destruct Hne. }
    pose proof (fraction_gap X den k n Hden Hk Hgt) as Hg1.
    assert (inject_Z (- (n + 1)) < - X)%Q as Hgt'
      by (rewrite inject_Z_opp, inject_Z_plus; change (inject_Z 1) with 1%Q; lra).
    assert ((- X) * inject_Z den == inject_Z (- k))%Q as Hk'
      by (rewrite inject_Z_opp, <- Hk; ring).
    pose proof (fraction_gap (- X) den (- k) (- (n + 1)) Hden Hk' Hgt') as Hg2.
    rewrite inject_Z_opp in Hg2. rewrite inject_Z_plus in *.
    change (inject_Z 1) with 1%Q in *. split; lra. }
  split; [split|].
  - apply Qfloor_glb. unfold Z.sub. rewrite inject_Z_plus.
    change (inject_Z (- (1))) with (- (1))%Q. lra.
  - apply Qfloor_lub.
    destruct (Qeq_dec X (inject_Z n)) as [He | Hne].
    + rewrite inject_Z_plus. change (inject_Z 1) with 1%Q. lra.
    + by apply Hni.
  - intros Hne. destruct (Hni Hne) as [H1 H2].
    apply Z.le_antisymm; [by apply Qfloor_lub | by apply Qfloor_glb].
Qed.


(** *** The steps of [_calc_size] *)

Lemma Qabs_close (v x : Q) :
  (Qabs (v - x) <= v * roundoff)%Q → ((1 - roundoff) * v <= x <= (1 + roundoff) * v)%Q.
Proof. intros H%Qabs_diff_Qle_condition. lra. Qed.

Lemma int_truediv_approx (A W : Z) :
  0 ≤ A < 2 ^ 53 → 0 < W < 2 ^ 53 →
  ∃ fw s, PyFloat.of_int W = Ok fw ∧
          PyFloat.int_truediv A fw = Ok s ∧
          approx s (inject_Z A / inject_Z W).
Proof.
  intros HA HW.
  destruct (of_int_exact W HW) as (mw & ew & Hfw & Hmw & Hew & Hvw).
  exists (S754_finite false mw ew). unfold PyFloat.int_truediv.
  destruct (Z.eq_dec A 0) as [-> | HA0].
  - exists (S754_zero false). split; [done|]. split; [reflexivity|].
    simpl. unfold Qdiv. apply Qmult_0_l.
  - destruct (of_int_exact A ltac:(lia)) as (ma & ea & Hfa & Hma & Hea & Hva).
    rewrite Hfa. unfold mbind, result_bind, PyFloat.is_zero.
    destruct (SFdiv_value ma mw ea ew) as (m & e & Hr & Hm & He & Herr);
      try lia.
    exists (S754_finite false m e).
    change PyFloat.prec with 53. change PyFloat.emax with 1024.
    split; [done|]. split; [by rewrite Hr|].
    split; [done|]. split; [lia|].
    apply Qabs_close. by rewrite <- Hva, <- Hvw.
Qed.

Lemma approx_nonneg f x : approx f x → (0 <= x)%Q.
Proof.
  destruct f as [[]|[]| |[] m e]; simpl; try done.
  - intros ->. apply Qle_refl.
  - intros (Hm & He & Hx). pose proof (F2Q_pos m e) as Hp. simpl in Hp.
    unfold roundoff in *. nra.
Qed.

Lemma min_approx s1 s2 x1 x2 :
  approx s1 x1 → approx s2 x2 →
  approx (PyFloat.min s1 s2) (Qmin x1 x2).
Proof.
  intros H1 H2. pose proof (approx_nonneg _ _ H1) as Hx1.
  pose proof (approx_nonneg _ _ H2) as Hx2.
  unfold PyFloat.min.
  destruct s1 as [[]|[]| |[] m1 e1], s2 as [[]|[]| |[] m2 e2];
    try done.
  - simpl in *. rewrite H1. by apply Q.min_l.
  - simpl in H1 |- *. rewrite H1. by apply Q.min_l.
  - change (SFltb (S754_zero false) (S754_finite false m1 e1)) with true.
    simpl in H2 |- *. rewrite H2. by apply Q.min_r.
  - destruct H1 as (Hm1 & He1 & Hv1), H2 as (Hm2 & He2 & Hv2).
    pose proof (SFltb_normal m2 m1 e2 e1 Hm2 Hm1) as Hcmp.
    pose proof (F2Q_pos m1 e1). pose proof (F2Q_pos m2 e2).
    destruct (SFltb _ _); (split; [done|]; split; [done|]);
      set (v1 := F2Q (S754_finite false m1 e1)) in *;
      set (v2 := F2Q (S754_finite false m2 e2)) in *;
      destruct (Q.min_spec_le x1 x2) as [[Hle ->] | [Hle ->]]; unfold roundoff in *;
      split; lra.
Qed.

(** The scaled dimension [int(c * scale)] against the exact value. *)
Lemma int_mul_floor (c : Z) (s : spec_float) (mu : Q) (den k : Z) :
  0 < c < 2 ^ 53 →
  approx s mu →
  (inject_Z c * mu <= 16777216)%Q →
  0 < den ≤ 2 ^ 24 →
  (inject_Z c * mu * inject_Z den == inject_Z k)%Q →
  ∃ p o, PyFloat.int_mul c s = Ok p ∧ PyFloat.to_int p = Ok o ∧
         0 ≤ o ∧
         Qfloor (inject_Z c * mu) - 1 ≤ o ≤ Qfloor (inject_Z c * mu) ∧
         (¬ (inject_Z c * mu == inject_Z (Qfloor (inject_Z c * mu)))%Q →
          o = Qfloor (inject_Z c * mu)).
Proof.
  intros Hc Hs HX Hden Hk.
  destruct (of_int_exact c Hc) as (mc & ec & Hfc & Hmc & Hec & Hvc).
  unfold PyFloat.int_mul. rewrite Hfc. unfold mbind, result_bind.
  change PyFloat.prec with 53. change PyFloat.emax with 1024.
  destruct s as [[]|[]| |[] ms es]; try done.
  - (* a zero scale *)
    simpl in Hs. exists (S754_zero false), 0.
    split; [done|]. split; [done|].
    assert (inject_Z c * mu == 0)%Q as HX0 by (rewrite Hs; ring).
    rewrite (Qfloor_comp _ _ HX0). change (Qfloor 0) with 0.
    split; [lia|]. split; [lia|]. done.
  - destruct Hs as (Hms & Hes & Hv).
    destruct (SFmul_value mc ms ec es) as (m & e & Hr & Hm & He & Herr);
      try lia.
    rewrite Hr. exists (S754_finite false m e), (Qfloor (F2Q (S754_finite false m e))).
    split; [done|]. split; [apply to_int_floor|].
    apply Qabs_close in Herr. rewrite Hvc in Herr.
    pose proof (F2Q_pos ms es) as Hps. pose proof (F2Q_pos m e) as Hpp.
    assert (0 < inject_Z c)%Q as Hcq by (rewrite <- (Zlt_Qlt 0); lia).
    set (p := F2Q (S754_finite false m e)) in *.
    set (v := F2Q (S754_finite false ms es)) in *.
    split; [apply Qfloor_glb; change (inject_Z 0) with 0%Q; lra|].
    apply (floor_close p _ den k); try done.
    + unfold roundoff in *. nra.
    + unfold roundoff in *. nra.
    + split; [|done]. unfold roundoff in *. nra.
Qed.


(** *** The computed size against the exact one *)

Lemma exact_scale_dim (A B W H c : Z) :
  0 ≤ A ≤ 2 ^ 24 → 0 ≤ B ≤ 2 ^ 24 → 0 < W ≤ 2 ^ 24 → 0 < H ≤ 2 ^ 24 →
  c = W ∨ c = H →
  let X := (inject_Z c * exact_scale (A, B) (W, H))%Q in
  (X <= 16777216)%Q ∧
  ∃ den k, 0 < den ≤ 2 ^ 24 ∧ (X * inject_Z den == inject_Z k)%Q.
Proof.
  intros HA HB HW HH Hc X. subst X. unfold exact_scale. simpl.
  assert (0 < inject_Z W)%Q as HWq by (rewrite <- (Zlt_Qlt 0); lia).
  assert (0 < inject_Z H)%Q as HHq by (rewrite <- (Zlt_Qlt 0); lia).
  assert (inject_Z A <= 16777216)%Q as HAq
    by (change 16777216%Q with (inject_Z (2 ^ 24)); rewrite <- Zle_Qle; lia).
  assert (inject_Z B <= 16777216)%Q as HBq
    by (change 16777216%Q with (inject_Z (2 ^ 24)); rewrite <- Zle_Qle; lia).
  set (mu := Qmin (inject_Z A / inject_Z W) (inject_Z B / inject_Z H)).
  pose proof (Q.le_min_l (inject_Z A / inject_Z W) (inject_Z B / inject_Z H))
    as Hl.
  pose proof (Q.le_min_r (inject_Z A / inject_Z W) (inject_Z B / inject_Z H))
    as Hr.
  fold mu in Hl, Hr.
  split.
  - destruct Hc as [-> | ->].
    + apply Qle_trans with (inject_Z W * (inject_Z A / inject_Z W))%Q.
      * apply Qmult_le_l; done.
      * apply Qle_trans with (inject_Z A); [|done].
        apply Qle_lteq. right. field. lra.
    + apply Qle_trans with (inject_Z H * (inject_Z B / inject_Z H))%Q.
      * apply Qmult_le_l; done.
      * apply Qle_trans with (inject_Z B); [|done].
        apply Qle_lteq. right. field. lra.
  - destruct (Q.min_dec (inject_Z A / inject_Z W) (inject_Z B / inject_Z H))
      as [He | He]; fold mu in He.
    + exists W, (c * A). split; [lia|].
      rewrite He, inject_Z_mult. field. lra.
    + exists H, (c * B). split; [lia|].
      rewrite He, inject_Z_mult. field. lra.
Qed.

(** The computed size against the exact one, for dimensions up to
    [2 ^ 24]. *)
Lemma calc_size_scaled (A B W H : Z) (px : list Z) :
  0 ≤ A ≤ 2 ^ 24 → 0 ≤ B ≤ 2 ^ 24 → 0 < W ≤ 2 ^ 24 → 0 < H ≤ 2 ^ 24 →
  ¬ (W ≤ A ∧ H ≤ B) →
  ∃ out_w out_h,
    _calc_size (A, B) (Image (W, H) px) = Ok (out_w, out_h) ∧
    dim_ok out_w (inject_Z W * exact_scale (A, B) (W, H)) ∧
    dim_ok out_h (inject_Z H * exact_scale (A, B) (W, H)).
Proof.
  intros HA HB HW HH Hfit. unfold _calc_size. cbn [size].
  assert ((A >=? W) && (B >=? H) = false) as ->.
  { apply andb_false_iff. destruct (Z_le_gt_dec W A); [right|left]; lia. }
  destruct (int_truediv_approx A W) as (fw & sw & Hfw & Hsw & Haw); try lia.
  destruct (int_truediv_approx B H) as (fh & sh & Hfh & Hsh & Hah); try lia.
  pose proof (min_approx _ _ _ _ Haw Hah) as Hscale.
  fold (exact_scale (A, B) (W, H)) in Hscale.
  destruct (exact_scale_dim A B W H W) as (HXw & dw & kw & Hdw & Hkw);
    try lia.
  destruct (exact_scale_dim A B W H H) as (HXh & dh & kh & Hdh & Hkh);
    try lia.
  destruct (int_mul_floor W _ _ dw kw ltac:(lia) Hscale HXw Hdw Hkw)
    as (pw & ow & Hpw & How & Hw).
  destruct (int_mul_floor H _ _ dh kh ltac:(lia) Hscale HXh Hdh Hkh)
    as (ph & oh & Hph & Hoh & Hh).
  exists ow, oh.
  rewrite Hfw. unfold mbind at 1, result_bind at 1.
  rewrite Hsw. unfold mbind at 1, result_bind at 1.
  rewrite Hfh. unfold mbind at 1, result_bind at 1.
  rewrite Hsh. unfold mbind at 1, result_bind at 1.
  rewrite Hpw. unfold mbind at 1, result_bind at 1.
  rewrite How. unfold mbind at 1, result_bind at 1.
  rewrite Hph. unfold mbind at 1, result_bind at 1.
  rewrite Hoh. unfold mbind at 1, result_bind at 1.
  done.
Qed.


(** ** SizeCalculator *)

(** C3. A source that already fits the bounding box is returned unchanged:
    [_calc_size] never upscales. *)
Theorem C3_fit_never_upscales (max_width max_height : Z) (im : image) :
  0 < (size im).1 → 0 < (size im).2 →
  (size im).1 ≤ max_width → (size im).2 ≤ max_height →
  _calc_size (max_width, max_height) im = Ok (size im).
Proof.
  intros _ _ Hw Hh. unfold _calc_size.
  destruct (size im) as [w h]; simpl in *.
  assert ((max_width >=? w) = true) as -> by lia.
  assert ((max_height >=? h) = true) as -> by lia.
  reflexivity.
Qed.

Lemma C3_fit_never_upscales_witness :
  _calc_size (100, 100) (Image (80, 60) []) = Ok (80, 60).
Proof.
  apply (C3_fit_never_upscales 100 100 (Image (80, 60) [])); simpl; lia.
Defined.


(** C2, as stated, fails: a 150x161 source in the 100x100 box has the
    exact scale [100 / 161] and the exact size 93x100, but the binary64
    product [161 * (100 / 161.0)] lies just below 100 and [int] truncates
    it to 99. *)
Lemma C2_float_product_below_exact :
  0 < 150 ∧ 0 < 161 ∧ ¬ (100 >= 150 ∧ 100 >= 161) ∧
  _calc_size (100, 100) (Image (150, 161) []) = Ok (93, 99) ∧
  fit_spec (100, 100) (150, 161) = (93, 100).
Proof.
  split; [lia|]. split; [lia|]. split; [lia|].
  split; vm_compute; reflexivity.
Qed.

(** C2 (amended). For a source with [0 < w, h ≤ 2 ^ 24] that does not fit
    a box with [0 ≤ maxW, maxH ≤ 2 ^ 24], [_calc_size] returns a size, and
    each returned dimension is the specified [floor(scale * dim)], with
    [scale = min(maxW / w, maxH / h)] over the reals, or that value less
    one; it is one less only when the exact [scale * dim] is an integer
    (the binary64 product may then fall just below it). *)
Theorem C2_fit_floor_of_scaled (max_width max_height : Z) (im : image) :
  0 < (size im).1 ≤ 2 ^ 24 → 0 < (size im).2 ≤ 2 ^ 24 →
  0 ≤ max_width ≤ 2 ^ 24 → 0 ≤ max_height ≤ 2 ^ 24 →
  ¬ ((size im).1 ≤ max_width ∧ (size im).2 ≤ max_height) →
  ∃ out_w out_h,
    _calc_size (max_width, max_height) im = Ok (out_w, out_h) ∧
    let scale := exact_scale (max_width, max_height) (size im) in
    let spec := fit_spec (max_width, max_height) (size im) in
    spec.1 - 1 ≤ out_w ≤ spec.1 ∧
    spec.2 - 1 ≤ out_h ≤ spec.2 ∧
    (¬ is_integer (scale * inject_Z (size im).1) → out_w = spec.1) ∧
    (¬ is_integer (scale * inject_Z (size im).2) → out_h = spec.2).
Proof.
  destruct im as [[w h] px]. cbn [size fst snd].
  intros Hw Hh HA HB Hfit.
  destruct (calc_size_scaled max_width max_height w h px)
    as (out_w & out_h & Hres & (_ & Hw1 & Hw2) & (_ & Hh1 & Hh2)); try done.
  exists out_w, out_h. split; [done|].
  cbv zeta. unfold fit_spec, is_integer. cbn [fst snd].
  assert ((max_width >=? w) && (max_height >=? h) = false) as ->.
  { apply andb_false_iff. destruct (Z_le_gt_dec w max_width); [right|left]; lia. }
  cbn [fst snd].
  set (mu := exact_scale (max_width, max_height) (w, h)) in *.
  assert (mu * inject_Z w == inject_Z w * mu)%Q as Hcw by apply Qmult_comm.
  assert (mu * inject_Z h == inject_Z h * mu)%Q as Hch by apply Qmult_comm.
  rewrite (Qfloor_comp _ _ Hcw), (Qfloor_comp _ _ Hch).
  split; [lia|]. split; [lia|]. split.
  - intros Hn. apply Hw2. intros He. apply Hn. by rewrite Hcw.
  - intros Hn. apply Hh2. intros He. apply Hn. by rewrite Hch.
Qed.

Lemma C2_fit_floor_of_scaled_witness :
  ∃ out_w out_h,
    _calc_size (100, 100) (Image (200, 400) []) = Ok (out_w, out_h) ∧
    let scale := exact_scale (100, 100) (200, 400) in
    let spec := fit_spec (100, 100) (200, 400) in
    spec.1 - 1 ≤ out_w ≤ spec.1 ∧
    spec.2 - 1 ≤ out_h ≤ spec.2 ∧
    (¬ is_integer (scale * inject_Z 200) → out_w = spec.1) ∧
    (¬ is_integer (scale * inject_Z 400) → out_h = spec.2).
Proof.
  apply (C2_fit_floor_of_scaled 100 100 (Image (200, 400) [])); simpl; lia.
Defined.

Lemma dim_ok_bounds (o : Z) (X : Q) :
  dim_ok o X → (X - 1 <= inject_Z o <= X)%Q.
Proof.
  intros (_ & Ho & Hni).
  pose proof (Qfloor_le X) as H1. pose proof (Qlt_floor X) as H2.
  rewrite inject_Z_plus in H2. change (inject_Z 1) with 1%Q in H2.
  split.
  - destruct (Qeq_dec X (inject_Z (Qfloor X))) as [He | Hne].
    + assert (inject_Z (Qfloor X - 1) <= inject_Z o)%Q as H
        by (rewrite <- Zle_Qle; lia).
      unfold Z.sub in H. rewrite inject_Z_plus in H.
      change (inject_Z (- (1))) with (- (1))%Q in H. lra.
    + rewrite (Hni Hne). lra.
  - apply Qle_trans with (inject_Z (Qfloor X)); [|done].
    rewrite <- Zle_Qle. lia.
Qed.

(** C4, as stated, fails for large dimensions: the box side [2 ^ 53 + 3]
    is not a binary64 number, its conversion rounds it up, and a square
    source of side [2 ^ 54] comes out one pixel larger than the box in
    both directions. *)
Lemma C4_result_exceeds_large_box :
  let side := 2 ^ 53 + 3 in
  0 < 2 ^ 54 ∧ ¬ (side >= 2 ^ 54 ∧ side >= 2 ^ 54) ∧
  _calc_size (side, side) (Image (2 ^ 54, 2 ^ 54) [])
  = Ok (side + 1, side + 1).
Proof.
  split; [lia|]. split; [lia|]. vm_compute. reflexivity.
Qed.

(** C4 (amended). For a source with [0 < w, h ≤ 2 ^ 24] that does not fit
    a box with [0 ≤ maxW, maxH ≤ 2 ^ 24], the returned size lies within the
    box, at least one returned dimension is the box dimension or one pixel
    less, and the aspect ratio is preserved up to one pixel:
    [- h ≤ outW * h - outH * w ≤ w]. *)
Theorem C4_fit_within_box_tight_proportional
    (max_width max_height : Z) (im : image) :
  0 < (size im).1 ≤ 2 ^ 24 → 0 < (size im).2 ≤ 2 ^ 24 →
  0 ≤ max_width ≤ 2 ^ 24 → 0 ≤ max_height ≤ 2 ^ 24 →
  ¬ ((size im).1 ≤ max_width ∧ (size im).2 ≤ max_height) →
  ∃ out_w out_h,
    _calc_size (max_width, max_height) im = Ok (out_w, out_h) ∧
    0 ≤ out_w ≤ max_width ∧ 0 ≤ out_h ≤ max_height ∧
    (max_width - 1 ≤ out_w ∨ max_height - 1 ≤ out_h) ∧
    - (size im).2 ≤ out_w * (size im).2 - out_h * (size im).1 ≤ (size im).1.
Proof.
  destruct im as [[w h] px]. cbn [size fst snd].
  intros Hw Hh HA HB Hfit.
  destruct (calc_size_scaled max_width max_height w h px)
    as (out_w & out_h & Hres & Hdw & Hdh); try done.
  exists out_w, out_h. split; [done|].
  pose proof (dim_ok_bounds _ _ Hdw) as [Hw1 Hw2].
  pose proof (dim_ok_bounds _ _ Hdh) as [Hh1 Hh2].
  destruct Hdw as (Hw0 & Hwf & _), Hdh as (Hh0 & Hhf & _).
  unfold exact_scale in *. cbn [fst snd] in *.
  assert (0 < inject_Z w)%Q as Hwq by (rewrite <- (Zlt_Qlt 0); lia).
  assert (0 < inject_Z h)%Q as Hhq by (rewrite <- (Zlt_Qlt 0); lia).
  set (xw := (inject_Z max_width / inject_Z w)%Q) in *.
  set (xh := (inject_Z max_height / inject_Z h)%Q) in *.
  assert (inject_Z w * xw == inject_Z max_width)%Q as Hxw
    by (subst xw; field; lra).
  assert (inject_Z h * xh == inject_Z max_height)%Q as Hxh
    by (subst xh; field; lra).
  pose proof (Q.le_min_l xw xh) as Hl. pose proof (Q.le_min_r xw xh) as Hr.
  set (mu := Qmin xw xh) in *.
  assert (inject_Z w * mu <= inject_Z max_width)%Q as Hbw.
  { rewrite <- Hxw. by apply Qmult_le_l. }
  assert (inject_Z h * mu <= inject_Z max_height)%Q as Hbh.
  { rewrite <- Hxh. by apply Qmult_le_l. }
  split; [|split; [|split]].
  - split; [done|]. rewrite Zle_Qle. lra.
  - split; [done|]. rewrite Zle_Qle. lra.
  - destruct (Q.min_dec xw xh) as [He | He]; fold mu in He.
    + left. rewrite He in Hwf.
      rewrite (Qfloor_comp _ _ Hxw), Qfloor_Z in Hwf. lia.
    + right. rewrite He in Hhf.
      rewrite (Qfloor_comp _ _ Hxh), Qfloor_Z in Hhf. lia.
  - rewrite !Zle_Qle. unfold Z.sub.
    rewrite inject_Z_plus, !inject_Z_opp, !inject_Z_mult.
    set (a := inject_Z out_w) in *. set (b := inject_Z out_h) in *.
    set (W := inject_Z w) in *. set (H := inject_Z h) in *.
    assert (a * H <= W * mu * H)%Q by (by apply Qmult_le_compat_r; [|lra]).
    assert ((W * mu - 1) * H <= a * H)%Q by (by apply Qmult_le_compat_r; [|lra]).
    assert (b * W <= H * mu * W)%Q by (by apply Qmult_le_compat_r; [|lra]).
    assert ((H * mu - 1) * W <= b * W)%Q by (by apply Qmult_le_compat_r; [|lra]).
    split; lra.
Qed.

Lemma C4_fit_within_box_tight_proportional_witness :
  ∃ out_w out_h,
    _calc_size (100, 100) (Image (150, 161) []) = Ok (out_w, out_h) ∧
    0 ≤ out_w ≤ 100 ∧ 0 ≤ out_h ≤ 100 ∧
    (100 - 1 ≤ out_w ∨ 100 - 1 ≤ out_h) ∧
    - 161 ≤ out_w * 161 - out_h * 150 ≤ 150.
Proof.
  apply (C4_fit_within_box_tight_proportional 100 100 (Image (150, 161) []));
    simpl; lia.
Defined.

(** *** Exceptions of [_calc_size] *)

Lemma of_int_bounded (n : Z) :
  Z.abs n < 2 ^ 53 →
  ∃ f, PyFloat.of_int n = Ok f ∧ (n ≠ 0 → PyFloat.is_zero f = false).
Proof.
  intros Hn. unfold PyFloat.of_int, binary_normalize.
  change PyFloat.prec with 53. change PyFloat.emax with 1024.
  destruct n as [|p|p].
  - by exists (S754_zero false).
  - destruct (binary_round_int false p) as (m & e & -> & _); [lia|].
    by exists (S754_finite false m e).
  - destruct (binary_round_int true p) as (m & e & -> & _); [lia|].
    by exists (S754_finite true m e).
Qed.

Lemma of_int_raises (n : Z) (e : error) :
  PyFloat.of_int n = Raise e → e = OverflowError.
Proof.
  unfold PyFloat.of_int. destruct (binary_normalize _ _ _ _ _); congruence.
Qed.

Lemma int_truediv_raises (n : Z) (f : spec_float) (e : error) :
  PyFloat.int_truediv n f = Raise e →
  e = OverflowError ∨ e = ZeroDivisionError.
Proof.
  unfold PyFloat.int_truediv.
  destruct (PyFloat.of_int n) as [a|e'] eqn:Ha; unfold mbind, result_bind.
  - destruct (PyFloat.is_zero f); [|done]. intros [= <-]. by right.
  - intros [= <-]. left. by eapply of_int_raises.
Qed.

Lemma int_mul_raises (n : Z) (f : spec_float) (e : error) :
  PyFloat.int_mul n f = Raise e → e = OverflowError.
Proof.
  unfold PyFloat.int_mul.
  destruct (PyFloat.of_int n) as [a|e'] eqn:Ha; unfold mbind, result_bind;
    [done|].
  intros [= <-]. by eapply of_int_raises.
Qed.

Lemma to_int_raises (f : spec_float) (e : error) :
  PyFloat.to_int f = Raise e → e = OverflowError ∨ e = ValueError.
Proof.
  destruct f; simpl; intros [= <-]; auto.
Qed.

Lemma bind_Ok {A B : Type} (a : A) (k : A → result B) : (Ok a ≫= k) = k a.
Proof. reflexivity. Qed.

Lemma int_truediv_eq (n : Z) (f a : spec_float) :
  PyFloat.of_int n = Ok a →
  PyFloat.int_truediv n f
  = if PyFloat.is_zero f then Raise ZeroDivisionError
    else Ok (SFdiv PyFloat.prec PyFloat.emax a f).
Proof. unfold PyFloat.int_truediv. by intros ->. Qed.

(** Whatever its arguments, [_calc_size] raises nothing but the
    exceptions of float arithmetic. *)
Lemma calc_size_raises (target : Z * Z) (im : image) (e : error) :
  _calc_size target im = Raise e →
  e = ZeroDivisionError ∨ e = OverflowError ∨ e = ValueError.
Proof.
  unfold _calc_size. destruct target as [A B], (size im) as [w h].
  destruct ((A >=? w) && (B >=? h)); [done|].
  destruct (PyFloat.of_int w) as [fw|?] eqn:H1; unfold mbind at 1, result_bind at 1;
    [|intros [= <-]; apply of_int_raises in H1; auto].
  destruct (PyFloat.int_truediv A fw) as [sw|?] eqn:H2;
    unfold mbind at 1, result_bind at 1;
    [|intros [= <-]; apply int_truediv_raises in H2; tauto].
  destruct (PyFloat.of_int h) as [fh|?] eqn:H3; unfold mbind at 1, result_bind at 1;
    [|intros [= <-]; apply of_int_raises in H3; auto].
  destruct (PyFloat.int_truediv B fh) as [sh|?] eqn:H4;
    unfold mbind at 1, result_bind at 1;
    [|intros [= <-]; apply int_truediv_raises in H4; tauto].
  destruct (PyFloat.int_mul w _) as [pw|?] eqn:H5;
    unfold mbind at 1, result_bind at 1;
    [|intros [= <-]; apply int_mul_raises in H5; auto].
  destruct (PyFloat.to_int pw) as [ow|?] eqn:H6;
    unfold mbind at 1, result_bind at 1;
    [|intros [= <-]; apply to_int_raises in H6; tauto].
  destruct (PyFloat.int_mul h _) as [ph|?] eqn:H7;
    unfold mbind at 1, result_bind at 1;
    [|intros [= <-]; apply int_mul_raises in H7; auto].
  destruct (PyFloat.to_int ph) as [oh|?] eqn:H8;
    unfold mbind at 1, result_bind at 1;
    [done|intros [= <-]; apply to_int_raises in H8; tauto].
Qed.

(** C5, as stated, fails: degenerate sources are not rejected.  A zero
    width inside the box is returned as it is, a negative width is scaled
    like any other, and a zero width outside the box stops in the float
    division. *)
Lemma C5_degenerate_sources_not_rejected :
  _calc_size (10, 10) (Image (0, 5) []) = Ok (0, 5) ∧
  _calc_size (10, 10) (Image (-5, 20) []) = Ok (10, -40) ∧
  _calc_size (10, 10) (Image (0, 20) []) = Raise ZeroDivisionError.
Proof. repeat split; vm_compute; reflexivity. Qed.

(** C5 (amended). [_calc_size] does not check its source size and never
    fails with [InvalidSource].  A degenerate source ([w ≤ 0] or [h ≤ 0])
    that fits the box is returned unchanged; one that does not fit and has
    a zero width or height fails with [ZeroDivisionError] (all four
    values being below [2 ^ 53] in magnitude). *)
Theorem C5_fit_does_not_validate_source
    (max_width max_height : Z) (im : image) :
  (size im).1 ≤ 0 ∨ (size im).2 ≤ 0 →
  _calc_size (max_width, max_height) im ≠ Raise InvalidSource ∧
  ((size im).1 ≤ max_width ∧ (size im).2 ≤ max_height →
   _calc_size (max_width, max_height) im = Ok (size im)) ∧
  (¬ ((size im).1 ≤ max_width ∧ (size im).2 ≤ max_height) →
   (size im).1 = 0 ∨ (size im).2 = 0 →
   Z.abs max_width < 2 ^ 53 → Z.abs max_height < 2 ^ 53 →
   Z.abs (size im).1 < 2 ^ 53 → Z.abs (size im).2 < 2 ^ 53 →
   _calc_size (max_width, max_height) im = Raise ZeroDivisionError).
Proof.
  intros _. split; [|split].
  - intros He. apply calc_size_raises in He as [He | [He | He]]; discriminate.
  - unfold _calc_size. destruct (size im) as [w h]. cbn [fst snd].
    intros [Hw Hh].
    assert ((max_width >=? w) = true) as -> by lia.
    by assert ((max_height >=? h) = true) as -> by lia.
  - unfold _calc_size. destruct (size im) as [w h]. cbn [fst snd].
    intros Hfit Hzero HA HB Hw Hh.
    assert ((max_width >=? w) && (max_height >=? h) = false) as ->.
    { apply andb_false_iff.
      destruct (Z_le_gt_dec w max_width); [right|left]; lia. }
    destruct (of_int_bounded max_width HA) as (fa & Hfa & _).
    destruct (of_int_bounded max_height HB) as (fb & Hfb & _).
    destruct (Z.eq_dec w 0) as [-> | Hw0].
    + change (PyFloat.of_int 0) with (Ok (S754_zero false)).
      rewrite bind_Ok, (int_truediv_eq max_width _ fa Hfa). reflexivity.
    + assert (h = 0) as -> by lia.
      destruct (of_int_bounded w Hw) as (fw & Hfw & Hnz).
      rewrite Hfw, bind_Ok, (int_truediv_eq max_width fw fa Hfa), (Hnz Hw0).
      rewrite bind_Ok.
      change (PyFloat.of_int 0) with (Ok (S754_zero false)).
      rewrite bind_Ok, (int_truediv_eq max_height _ fb Hfb). reflexivity.
Qed.

Lemma C5_fit_does_not_validate_source_witness :
  _calc_size (10, 10) (Image (0, 20) []) ≠ Raise InvalidSource ∧
  (0 ≤ 10 ∧ 20 ≤ 10 → _calc_size (10, 10) (Image (0, 20) []) = Ok (0, 20)) ∧
  (¬ (0 ≤ 10 ∧ 20 ≤ 10) → 0 = 0 ∨ 20 = 0 →
   Z.abs 10 < 2 ^ 53 → Z.abs 10 < 2 ^ 53 →
   Z.abs 0 < 2 ^ 53 → Z.abs 20 < 2 ^ 53 →
   _calc_size (10, 10) (Image (0, 20) []) = Raise ZeroDivisionError).
Proof.
  apply (C5_fit_does_not_validate_source 10 10 (Image (0, 20) [])).
  simpl. lia.
Defined.

(** ** ResizeOrchestrator *)

Section ServiceProperties.
Context {S : Type} `{ImageStorageLaws S}.
Variable Image_open : bytes → result image.
Variable Image_resize : image → Z * Z → result image.
Variable Image_save : image → result bytes.
Variable PROJECTS : gmap string project_config.

Abbreviation serve :=
  (_serve_image Image_open Image_resize Image_save PROJECTS).

(** C6. A request for an unknown project, or for a size (a non-empty
    string, as the URL route delivers it) that the project does not
    configure, is answered with [NotFound] and leaves the process state as
    it was: the trace gains no event, so no [exists], [get] or [save]
    was called. *)
Theorem C6_not_found_before_storage
    (project name extension : string) (size : option string) (w : world) :
  (PROJECTS !! project = None ∨
   ∃ cfg s, PROJECTS !! project = Some cfg ∧ size = Some s ∧
            s ≠ EmptyString ∧ dimensions cfg !! s = None) →
  serve project name size extension w = (Raise NotFound, w).
Proof.
  intros [Hp | (cfg & s & Hp & -> & Hs & Hd)]; unfold _serve_image;
    rewrite Hp; [reflexivity|].
  simpl. rewrite Hd.
  rewrite (bool_decide_eq_false_2 (s = EmptyString)) by done.
  rewrite (bool_decide_eq_false_2 (is_Some None)); [reflexivity|].
  by intros [? ?].
Qed.

(** C7. For a known project and a configured size, when neither the
    variant nor the original is stored, the request is answered with
    [NotFound]; the storage is unchanged and the only calls made are the
    two existence checks (no [get], no codec call, no [save]). *)
Theorem C7_missing_original_not_found
    (project name extension s : string) (cfg : project_config)
    (w : world) :
  PROJECTS !! project = Some cfg →
  is_Some (dimensions cfg !! s) →
  exists_ (storage w) (project, name, extension, Some s) = false →
  exists_ (storage w) (project, name, extension, None) = false →
  serve project name (Some s) extension w
  = (Raise NotFound,
     World (storage w)
       (trace w ++ [EvExists (project, name, extension, Some s);
                    EvExists (project, name, extension, None)])).
Proof.
  intros Hp Hs Hv Ho. unfold _serve_image. rewrite Hp. simpl.
  rewrite (bool_decide_eq_true_2 _ Hs), andb_false_r.
  unfold bindM, storage_exists, _resize_image, bindM, log, raise; simpl.
  rewrite Hv. simpl. rewrite Ho. simpl.
  by rewrite <- app_assoc.
Qed.

(** A successful resize stores under the requested key the very bytes
    it returns. *)
Lemma resize_image_stores_answer
    (project name extension : string) (size : option string)
    (w w1 : world) (fd : handle) :
  _resize_image Image_open Image_resize Image_save PROJECTS
    project name extension size w = (Ok fd, w1) →
  storage w1
  = save (storage w) (project, name, extension, size) (handle_read fd).
Proof.
  unfold _resize_image, bindM, storage_exists, storage_get, pil_open,
    pil_resize, save_image, pil_save, storage_save, bindM, log, lift,
    ret, raise; simpl.
  destruct (exists_ (storage w) (project, name, extension, None));
    simpl; [|done].
  destruct (get (storage w) _) as [fd0|]; simpl; [|done].
  destruct (Image_open (handle_read fd0)) as [im|]; simpl; [|done].
  destruct (lookup_dimensions PROJECTS project size) as [t|];
    simpl; [|done].
  destruct (_calc_size t im) as [ns|]; simpl; [|done].
  destruct (Image_resize im ns) as [im'|]; simpl; [|done].
  destruct (Image_save im') as [data|]; simpl; [|done].
  by intros [= <- <-].
Qed.

(** A request that was answered leaves its artifact in the storage, with
    the bytes of the answer. *)
Lemma serve_stores_answer
    (project name extension : string) (size : option string)
    (w w1 : world) (r : response) :
  serve project name size extension w = (Ok r, w1) →
  exists_ (storage w1) (project, name, extension, size) = true ∧
  ∃ fd, get (storage w1) (project, name, extension, size) = Ok fd ∧
        send_file fd "image/jpeg" = r.
Proof.
  unfold _serve_image. destruct (PROJECTS !! project) as [cfg|]; [|done].
  destruct (truthy size && negb (size_configured cfg size)); [done|].
  unfold bindM at 1. unfold storage_exists, bindM, log; simpl.
  destruct (exists_ (storage w) (project, name, extension, size)) eqn:Hv;
    simpl.
  - unfold storage_get, bindM, log, ret; simpl.
    destruct (get (storage w) _) as [fd|] eqn:Hg; [|done].
    intros [= <- <-]. simpl. eauto.
  - destruct (_resize_image _ _ _ _ _ _ _ _ _) as [[fd|] w'] eqn:Hr;
      [|done].
    apply resize_image_stores_answer in Hr. simpl in Hr.
    unfold ret. intros [= <- <-]. rewrite Hr.
    split; [apply exists_save|].
    pose proof (get_save (storage w) (project, name, extension, size)
                  (handle_read fd)) as Hg.
    destruct (get (save _ _ _) _) as [fd'|]; [|done].
    exists fd'. split; [done|]. unfold send_file.
    simpl in Hg. by injection Hg as ->.
Qed.

(** C1. Once a request has been answered, the same request made again is
    answered with the same bytes; the second call is a cache hit: it
    calls [exists] and [get] on the requested key and nothing else, so
    no codec operation runs and the storage is not written. *)
Theorem C1_serve_twice_identical
    (project name extension : string) (size : option string)
    (w w1 : world) (r : response) :
  serve project name size extension w = (Ok r, w1) →
  ∃ w2,
    serve project name size extension w1 = (Ok r, w2) ∧
    storage w2 = storage w1 ∧
    trace w2 = trace w1 ++ [EvExists (project, name, extension, size);
                            EvGet (project, name, extension, size)] ∧
    Forall (λ ev, is_codec_event ev = false)
           (drop (length (trace w1)) (trace w2)).
Proof.
  intros Hfirst.
  destruct (serve_stores_answer _ _ _ _ _ _ _ Hfirst) as (Hex & fd & Hg & Hr).
  eexists. split; [|split; [|split]].
  - revert Hfirst. unfold _serve_image.
    destruct (PROJECTS !! project) as [cfg|]; [|done].
    destruct (truthy size && negb (size_configured cfg size)); [done|].
    intros _. unfold bindM, storage_exists, storage_get, log, ret; simpl.
    rewrite Hex. simpl. rewrite Hg, Hr. reflexivity.
  - reflexivity.
  - simpl. by rewrite <- app_assoc.
  - simpl. rewrite <- app_assoc, drop_app_length. by repeat constructor.
Qed.


End ServiceProperties.



Lemma C6_not_found_before_storage_witness :
  Demo.serve "demo_project" "welcome" (Some "huge"%string) "jpg" Demo.w0
  = (Raise NotFound, Demo.w0).
Proof.
  apply (C6_not_found_before_storage
           Demo.Image_open Demo.Image_resize Demo.Image_save Demo.PROJECTS).
  right. eexists _, _.
  split; [reflexivity|]. split; [reflexivity|]. split; [done|reflexivity].
Defined.

Lemma C7_missing_original_not_found_witness :
  Demo.serve "demo_project" "absent" (Some "small"%string) "jpg" Demo.w0
  = (Raise NotFound,
     World Demo.fs0
       [EvExists ("demo_project", "absent", "jpg", Some "small")%string;
        EvExists ("demo_project", "absent", "jpg", None)%string]).
Proof.
  eapply (C7_missing_original_not_found
            Demo.Image_open Demo.Image_resize Demo.Image_save Demo.PROJECTS
            "demo_project" "absent" "jpg" "small" _ Demo.w0).
  - reflexivity.
  - by eexists.
  - reflexivity.
  - reflexivity.
Defined.

(** The scenario of the specification: a 200x400 original served at
    [small = (100, 100)] comes out as 50x100, and again on the second
    request. *)
Lemma C1_serve_twice_identical_witness :
  let r : response :=
    ([Byte.x00; Byte.x32; Byte.x00; Byte.x64; Byte.x2a], "image/jpeg"%string) in
  let w1 :=
    (Demo.serve "demo_project" "welcome" (Some "small"%string) "jpg"
       Demo.w0).2 in
  Demo.serve "demo_project" "welcome" (Some "small"%string) "jpg" Demo.w0
  = (Ok r, w1) ∧
  ∃ w2,
    Demo.serve "demo_project" "welcome" (Some "small"%string) "jpg" w1
    = (Ok r, w2) ∧
    storage w2 = storage w1 ∧
    trace w2
    = trace w1 ++
      [EvExists ("demo_project", "welcome", "jpg", Some "small")%string;
       EvGet ("demo_project", "welcome", "jpg", Some "small")%string] ∧
    Forall (λ ev, is_codec_event ev = false)
           (drop (length (trace w1)) (trace w2)).
Proof.
  intros r w1.
  assert (Demo.serve "demo_project" "welcome" (Some "small"%string) "jpg"
            Demo.w0 = (Ok r, w1)) as Hfirst by (vm_compute; reflexivity).
  split; [exact Hfirst|].
  exact (C1_serve_twice_identical
           Demo.Image_open Demo.Image_resize Demo.Image_save Demo.PROJECTS
           _ _ _ _ _ _ _ Hfirst).
Defined.

(** * Further properties of the service *)

(** ** The storage object and its backends *)

#[export] Instance file_storage_frame : ImageStorageFrame FileImageStorage.
Proof.
  split; intros st k k' data Hne; simpl.
  - by rewrite lookup_insert_ne.
  - by rewrite lookup_insert_ne.
Qed.

#[export] Instance datastore_storage_frame :
  ImageStorageFrame DatastoreImageStorage.
Proof.
  split; intros st k k' data Hne; simpl.
  - by rewrite lookup_insert_ne.
  - by rewrite lookup_insert_ne.
Qed.

#[export] Instance storage_object_laws : ImageStorageLaws storage_object.
Proof.
  split.
  - intros [st|st] k data; apply (get_save st).
  - intros [st|st] k data; apply (exists_save st).
  - intros [st|st] k; apply (get_exists st).
  - intros [st|st] k; apply (get_missing st).
Qed.

#[export] Instance storage_object_frame : ImageStorageFrame storage_object.
Proof.
  split.
  - intros [st|st] k k' data; apply (get_save_ne st).
  - intros [st|st] k k' data; apply (exists_save_ne st).
Qed.

(** ** More on [_calc_size] *)

(** The exact scale of a source that does not fit lies in [[0, 1)]. *)
Lemma exact_scale_range (A B W H : Z) :
  0 ≤ A → 0 ≤ B → 0 < W → 0 < H → ¬ (W ≤ A ∧ H ≤ B) →
  (0 <= exact_scale (A, B) (W, H) < 1)%Q.
Proof.
  intros HA HB HW HH Hfit. unfold exact_scale. cbn [fst snd].
  assert (0 < inject_Z W)%Q as HWq by (rewrite <- (Zlt_Qlt 0); lia).
  assert (0 < inject_Z H)%Q as HHq by (rewrite <- (Zlt_Qlt 0); lia).
  assert (0 <= inject_Z A)%Q as HAq by (rewrite <- (Zle_Qle 0); lia).
  assert (0 <= inject_Z B)%Q as HBq by (rewrite <- (Zle_Qle 0); lia).
  split.
  - apply Q.min_glb; apply Qle_shift_div_l; try done; lra.
  - destruct (Z_le_gt_dec W A) as [Hw | Hw].
    + apply Qle_lt_trans with (inject_Z B / inject_Z H)%Q;
        [apply Q.le_min_r|].
      apply Qlt_shift_div_r; [done|]. rewrite Qmult_1_l, <- Zlt_Qlt. lia.
    + apply Qle_lt_trans with (inject_Z A / inject_Z W)%Q;
        [apply Q.le_min_l|].
      apply Qlt_shift_div_r; [done|]. rewrite Qmult_1_l, <- Zlt_Qlt. lia.
Qed.

(** The size returned for a source that does not fit lies inside the box
    and strictly inside the source. *)
Lemma scaled_size_inside (A B W H : Z) (px : list Z) :
  0 ≤ A ≤ 2 ^ 24 → 0 ≤ B ≤ 2 ^ 24 → 0 < W ≤ 2 ^ 24 → 0 < H ≤ 2 ^ 24 →
  ¬ (W ≤ A ∧ H ≤ B) →
  ∃ out_w out_h,
    _calc_size (A, B) (Image (W, H) px) = Ok (out_w, out_h) ∧
    0 ≤ out_w ∧ out_w ≤ A ∧ out_w < W ∧
    0 ≤ out_h ∧ out_h ≤ B ∧ out_h < H.
Proof.
  intros HA HB HW HH Hfit.
  destruct (calc_size_scaled A B W H px)
    as (out_w & out_h & Hres & Hdw & Hdh); try done.
  exists out_w, out_h. split; [done|].
  pose proof (dim_ok_bounds _ _ Hdw) as [_ Hw2].
  pose proof (dim_ok_bounds _ _ Hdh) as [_ Hh2].
  destruct Hdw as (Hw0 & _ & _), Hdh as (Hh0 & _ & _).
  destruct (exact_scale_range A B W H) as [Hmu0 Hmu1]; try lia.
  pose proof (Q.le_min_l (inject_Z A / inject_Z W) (inject_Z B / inject_Z H))
    as Hl.
  pose proof (Q.le_min_r (inject_Z A / inject_Z W) (inject_Z B / inject_Z H))
    as Hr.
  unfold exact_scale in *. cbn [fst snd] in *.
  set (mu := Qmin (inject_Z A / inject_Z W) (inject_Z B / inject_Z H)) in *.
  assert (0 < inject_Z W)%Q as HWq by (rewrite <- (Zlt_Qlt 0); lia).
  assert (0 < inject_Z H)%Q as HHq by (rewrite <- (Zlt_Qlt 0); lia).
  assert (inject_Z W * mu <= inject_Z A)%Q as HbA.
  { apply Qle_trans with (inject_Z W * (inject_Z A / inject_Z W))%Q.
    - by apply Qmult_le_l.
    - apply Qle_lteq. right. field. lra. }
  assert (inject_Z H * mu <= inject_Z B)%Q as HbB.
  { apply Qle_trans with (inject_Z H * (inject_Z B / inject_Z H))%Q.
    - by apply Qmult_le_l.
    - apply Qle_lteq. right. field. lra. }
  assert (inject_Z W * mu < inject_Z W)%Q as HsW.
  { rewrite <- (Qmult_1_r (inject_Z W)) at 2. by apply Qmult_lt_l. }
  assert (inject_Z H * mu < inject_Z H)%Q as HsH.
  { rewrite <- (Qmult_1_r (inject_Z H)) at 2. by apply Qmult_lt_l. }
  repeat split; try done.
  - rewrite Zle_Qle. lra.
  - rewrite Zlt_Qlt. lra.
  - rewrite Zle_Qle. lra.
  - rewrite Zlt_Qlt. lra.
Qed.

(** X1. A source that does not fit the box is strictly reduced in both
    dimensions ([0 < w, h ≤ 2 ^ 24], [0 ≤ maxW, maxH ≤ 2 ^ 24]): the
    scaling branch never enlarges and never keeps a dimension. *)
Theorem calc_size_strictly_downscales
    (max_width max_height : Z) (im : image) :
  0 < (size im).1 ≤ 2 ^ 24 → 0 < (size im).2 ≤ 2 ^ 24 →
  0 ≤ max_width ≤ 2 ^ 24 → 0 ≤ max_height ≤ 2 ^ 24 →
  ¬ ((size im).1 ≤ max_width ∧ (size im).2 ≤ max_height) →
  ∃ out_w out_h,
    _calc_size (max_width, max_height) im = Ok (out_w, out_h) ∧
    0 ≤ out_w < (size im).1 ∧ 0 ≤ out_h < (size im).2.
Proof.
  destruct im as [[w h] px]. cbn [size fst snd].
  intros Hw Hh HA HB Hfit.
  destruct (scaled_size_inside max_width max_height w h px)
    as (out_w & out_h & Hres & ?); try done.
  exists out_w, out_h. split; [done|]. lia.
Qed.

Lemma calc_size_strictly_downscales_witness :
  ∃ out_w out_h,
    _calc_size (100, 100) (Image (150, 161) []) = Ok (out_w, out_h) ∧
    0 ≤ out_w < 150 ∧ 0 ≤ out_h < 161.
Proof.
  apply (calc_size_strictly_downscales 100 100 (Image (150, 161) []));
    simpl; lia.
Defined.

(** X2. [_calc_size] is idempotent: a size it returned is returned
    unchanged when it is submitted again with the same box (sizes and box
    as in X1, whether or not the source fits). *)
Theorem calc_size_idempotent
    (max_width max_height : Z) (im : image) (out : Z * Z) (px : list Z) :
  0 < (size im).1 ≤ 2 ^ 24 → 0 < (size im).2 ≤ 2 ^ 24 →
  0 ≤ max_width ≤ 2 ^ 24 → 0 ≤ max_height ≤ 2 ^ 24 →
  _calc_size (max_width, max_height) im = Ok out →
  _calc_size (max_width, max_height) (Image out px) = Ok out.
Proof.
  destruct im as [[w h] px0]. cbn [size fst snd].
  intros Hw Hh HA HB Hres.
  assert (out.1 ≤ max_width ∧ out.2 ≤ max_height) as [H1 H2].
  { destruct (decide (w ≤ max_width ∧ h ≤ max_height)) as [[Hfw Hfh] | Hfit].
    - unfold _calc_size in Hres. cbn [size] in Hres.
      assert ((max_width >=? w) = true) as Ha by lia.
      assert ((max_height >=? h) = true) as Hb by lia.
      rewrite Ha, Hb in Hres. injection Hres as <-. done.
    - destruct (scaled_size_inside max_width max_height w h px0)
        as (out_w & out_h & Hres' & ?); try done.
      rewrite Hres' in Hres. injection Hres as <-. simpl. lia. }
  unfold _calc_size. cbn [size]. destruct out as [ow oh]. simpl in H1, H2.
  assert ((max_width >=? ow) = true) as -> by lia.
  by assert ((max_height >=? oh) = true) as -> by lia.
Qed.

Lemma calc_size_idempotent_witness :
  _calc_size (100, 100) (Image (93, 99) []) = Ok (93, 99).
Proof.
  apply (calc_size_idempotent 100 100 (Image (150, 161) []) (93, 99) []);
    try (simpl; lia).
  vm_compute. reflexivity.
Defined.

(** X3. A box with a side of zero collapses every source to 0x0
    ([0 < w, h ≤ 2 ^ 24]). *)
Theorem calc_size_zero_box (max_width max_height : Z) (im : image) :
  0 < (size im).1 ≤ 2 ^ 24 → 0 < (size im).2 ≤ 2 ^ 24 →
  0 ≤ max_width ≤ 2 ^ 24 → 0 ≤ max_height ≤ 2 ^ 24 →
  max_width = 0 ∨ max_height = 0 →
  _calc_size (max_width, max_height) im = Ok (0, 0).
Proof.
  destruct im as [[w h] px]. cbn [size fst snd].
  intros Hw Hh HA HB Hzero.
  destruct (calc_size_scaled max_width max_height w h px)
    as (out_w & out_h & Hres & Hdw & Hdh); try lia.
  rewrite Hres.
  assert (exact_scale (max_width, max_height) (w, h) == 0)%Q as Hmu.
  { assert (0 < inject_Z w)%Q as HWq by (rewrite <- (Zlt_Qlt 0); lia).
    assert (0 < inject_Z h)%Q as HHq by (rewrite <- (Zlt_Qlt 0); lia).
    assert (0 <= inject_Z max_width)%Q by (rewrite <- (Zle_Qle 0); lia).
    assert (0 <= inject_Z max_height)%Q by (rewrite <- (Zle_Qle 0); lia).
    unfold exact_scale. cbn [fst snd].
    destruct Hzero as [-> | ->].
    - rewrite Q.min_l; [by field; lra|].
      apply Qle_shift_div_l; [done|]. change (inject_Z 0) with 0%Q.
      unfold Qdiv. lra.
    - rewrite Q.min_r; [by field; lra|].
      apply Qle_shift_div_l; [done|]. change (inject_Z 0) with 0%Q.
      unfold Qdiv. lra. }
  destruct Hdw as (Hw0 & Hwf & _), Hdh as (Hh0 & Hhf & _).
  assert (inject_Z w * exact_scale (max_width, max_height) (w, h) == 0)%Q
    as HXw by (rewrite Hmu; ring).
  assert (inject_Z h * exact_scale (max_width, max_height) (w, h) == 0)%Q
    as HXh by (rewrite Hmu; ring).
  rewrite (Qfloor_comp _ _ HXw) in Hwf. rewrite (Qfloor_comp _ _ HXh) in Hhf.
  change (Qfloor 0) with 0 in *.
  do 2 f_equal; lia.
Qed.

Lemma calc_size_zero_box_witness :
  _calc_size (0, 100) (Image (150, 161) []) = Ok (0, 0).
Proof.
  apply (calc_size_zero_box 0 100 (Image (150, 161) [])); simpl; lia.
Defined.

(** ** More on the orchestrator *)

Section MoreServiceProperties.
Context {S : Type} `{ImageStorageLaws S} `{!ImageStorageFrame S}.
Variable Image_open : bytes → result image.
Variable Image_resize : image → Z * Z → result image.
Variable Image_save : image → result bytes.
Variable PROJECTS : gmap string project_config.
Variable ALLOWED_EXTENSIONS : gset string.
Variable secure_filename : string → string.
Variable url_for_serve_original_image : string → string → string → string.

Abbreviation serve' :=
  (_serve_image Image_open Image_resize Image_save PROJECTS).
Abbreviation upload :=
  (upload_image Image_open Image_save PROJECTS ALLOWED_EXTENSIONS
     secure_filename url_for_serve_original_image).

(** What [save_image] does to the storage. *)
Lemma save_image_effect
    (project name extension : string) (im : image) (size : option string)
    (w : world) :
  save_image Image_save project name extension im size w
  = match Image_save im with
    | Ok data =>
        (Ok tt,
         World (save (storage w) (project, name, extension, size) data)
               (trace w ++ [EvImageSave;
                            EvSave (project, name, extension, size) data]))
    | Raise e => (Raise e, World (storage w) (trace w ++ [EvImageSave]))
    end.
Proof.
  unfold save_image, pil_save, storage_save, bindM, log, lift. simpl.
  destruct (Image_save im) as [data|e]; simpl; [|done].
  by rewrite <- app_assoc.
Qed.

(** X4. [save_image] stores the JPEG encoding of the image: afterwards the
    key exists and reads back exactly [Image_save im]; when the encoder
    raises, the exception is passed on and nothing is stored. *)
Theorem save_image_round_trip
    (project name extension : string) (im : image) (size : option string)
    (w : world) :
  let k := (project, name, extension, size) in
  let '(r, w1) := save_image Image_save project name extension im size w in
  match Image_save im with
  | Ok data =>
      r = Ok tt ∧ exists_ (storage w1) k = true ∧
      handle_read <$> get (storage w1) k = Ok data
  | Raise e => r = Raise e ∧ storage w1 = storage w
  end.
Proof.
  intros k. rewrite save_image_effect.
  destruct (Image_save im) as [data|e]; simpl; [|done].
  split; [done|]. split; [apply exists_save | apply get_save].
Qed.

(** A resize either stores its answer under the requested key or leaves
    the storage alone. *)
Lemma resize_image_effect
    (project name extension : string) (size : option string)
    (w w1 : world) (r : result handle) :
  _resize_image Image_open Image_resize Image_save PROJECTS
    project name extension size w = (r, w1) →
  (∃ e, r = Raise e ∧ storage w1 = storage w) ∨
  (∃ fd, r = Ok fd ∧
         storage w1
         = save (storage w) (project, name, extension, size)
                (handle_read fd)).
Proof.
  unfold _resize_image, bindM, storage_exists, storage_get, pil_open,
    pil_resize, save_image, pil_save, storage_save, bindM, log, lift,
    ret, raise; simpl.
  destruct (exists_ (storage w) (project, name, extension, None));
    simpl; [|intros [= <- <-]; left; eauto].
  destruct (get (storage w) _) as [fd0|]; simpl;
    [|intros [= <- <-]; left; eauto].
  destruct (Image_open (handle_read fd0)) as [im|]; simpl;
    [|intros [= <- <-]; left; eauto].
  destruct (lookup_dimensions PROJECTS project size) as [t|];
    simpl; [|intros [= <- <-]; left; eauto].
  destruct (_calc_size t im) as [ns|]; simpl;
    [|intros [= <- <-]; left; eauto].
  destruct (Image_resize im ns) as [im'|]; simpl;
    [|intros [= <- <-]; left; eauto].
  destruct (Image_save im') as [data|]; simpl;
    [|intros [= <- <-]; left; eauto].
  intros [= <- <-]. right. eauto.
Qed.

(** The same for a whole request. *)
Lemma serve_effect
    (project name extension : string) (size : option string)
    (w w1 : world) (r : result response) :
  serve' project name size extension w = (r, w1) →
  storage w1 = storage w ∨
  (∃ data, r = Ok (data, "image/jpeg"%string) ∧
           storage w1
           = save (storage w) (project, name, extension, size) data).
Proof.
  unfold _serve_image. destruct (PROJECTS !! project) as [cfg|];
    [|intros [= <- <-]; by left].
  destruct (truthy size && negb (size_configured cfg size));
    [intros [= <- <-]; by left|].
  unfold bindM at 1. unfold storage_exists, bindM, log; simpl.
  destruct (exists_ (storage w) (project, name, extension, size)); simpl.
  - unfold storage_get, bindM, log, ret; simpl.
    destruct (get (storage w) _); intros [= <- <-]; by left.
  - destruct (_resize_image _ _ _ _ _ _ _ _ _) as [r' w'] eqn:Hr.
    apply resize_image_effect in Hr
      as [(e & -> & Hst) | (fd & -> & Hst)]; simpl in Hst.
    + intros [= <- <-]. by left.
    + unfold ret. intros [= <- <-]. right. eauto.
Qed.

(** X5. A request that fails, with whatever exception, has not written:
    the storage is the one it found. *)
Theorem serve_failure_keeps_storage
    (project name extension : string) (size : option string)
    (w w1 : world) (e : error) :
  serve' project name size extension w = (Raise e, w1) →
  storage w1 = storage w.
Proof.
  intros Hs. by apply serve_effect in Hs as [Hst | (data & [=] & _)].
Qed.

(** X6. A request touches no key but the one it asks for: every other
    artifact, the original of a resized variant included, exists and reads
    after the request as it did before. *)
Theorem serve_touches_only_requested_key
    (project name extension : string) (size : option string)
    (w w1 : world) (r : result response) (k : image_key) :
  serve' project name size extension w = (r, w1) →
  k ≠ (project, name, extension, size) →
  get (storage w1) k = get (storage w) k ∧
  exists_ (storage w1) k = exists_ (storage w) k.
Proof.
  intros Hs Hk. apply serve_effect in Hs as [-> | (data & _ & ->)]; [done|].
  split; [by apply get_save_ne | by apply exists_save_ne].
Qed.

(** X7. A cache miss, step by step: the original is read and decoded, the
    target size is computed from the configured box, the image is resized
    and encoded, the encoding is saved under the requested key, and the
    image is encoded a second time for the reply, which carries the same
    bytes with mime type [image/jpeg]. *)
Theorem serve_miss_generates_and_stores
    (project name extension s : string) (cfg : project_config)
    (box new_size : Z * Z) (fd : handle) (im im' : image) (jpeg : bytes)
    (w : world) :
  let variant := (project, name, extension, Some s) in
  let original := (project, name, extension, None) in
  PROJECTS !! project = Some cfg →
  dimensions cfg !! s = Some box →
  exists_ (storage w) variant = false →
  exists_ (storage w) original = true →
  get (storage w) original = Ok fd →
  Image_open (handle_read fd) = Ok im →
  _calc_size box im = Ok new_size →
  Image_resize im new_size = Ok im' →
  Image_save im' = Ok jpeg →
  serve_resized_image Image_open Image_resize Image_save PROJECTS
    project name s extension w
  = (Ok (jpeg, "image/jpeg"%string),
     World (save (storage w) variant jpeg)
       (trace w ++ [EvExists variant; EvExists original; EvGet original;
                    EvImageOpen; EvResize new_size; EvImageSave;
                    EvSave variant jpeg; EvImageSave])).
Proof.
  intros variant original Hp Hd Hv Ho Hg Hopen Hsize Hres Hsave.
  unfold serve_resized_image, _serve_image. rewrite Hp.
  assert (size_configured cfg (Some s) = true) as ->.
  { simpl. apply bool_decide_eq_true. rewrite Hd. eauto. }
  rewrite andb_false_r.
  unfold _resize_image, bindM, storage_exists, storage_get, pil_open,
    pil_resize, save_image, pil_save, storage_save, bindM, log, lift,
    ret, raise, lookup_dimensions, send_file; simpl.
  fold variant original. rewrite Hv. simpl. rewrite Ho. simpl.
  rewrite Hg. simpl. rewrite Hopen. simpl. rewrite Hp, Hd. simpl.
  rewrite Hsize. simpl. rewrite Hres. simpl. rewrite Hsave. simpl.
  by rewrite <- !app_assoc.
Qed.

(** X8. A request for the original never decodes, resizes, encodes or
    writes: it answers [NotFound], or the stored bytes as they are with
    mime type [image/jpeg]. *)
Theorem serve_original_image_reads_only
    (project name extension : string) (w w1 : world)
    (r : result response) :
  serve_original_image Image_open Image_resize Image_save PROJECTS
    project name extension w = (r, w1) →
  storage w1 = storage w ∧
  Forall (λ ev, is_codec_event ev = false ∧ ∀ k d, ev ≠ EvSave k d)
         (drop (length (trace w)) (trace w1)) ∧
  (r = Raise NotFound ∨
   ∃ fd, get (storage w) (project, name, extension, None) = Ok fd ∧
         r = Ok (handle_read fd, "image/jpeg"%string)).
Proof.
  unfold serve_original_image, _serve_image.
  destruct (PROJECTS !! project) as [cfg|].
  2: { intros [= <- <-]. rewrite drop_ge by done. split; [done|].
       split; [constructor|by left]. }
  simpl. unfold bindM at 1. unfold storage_exists, bindM, log; simpl.
  destruct (exists_ (storage w) (project, name, extension, None)) eqn:Hex;
    simpl.
  - destruct (get_exists _ _ Hex) as [fd Hg].
    unfold storage_get, bindM, log, ret, send_file; simpl. rewrite Hg.
    intros [= <- <-]. simpl. split; [done|]. split.
    + rewrite <- app_assoc, drop_app_length.
      repeat constructor; done.
    + right. eauto.
  - unfold _resize_image, bindM, storage_exists, log, raise; simpl.
    rewrite Hex. simpl. intros [= <- <-]. simpl. split; [done|]. split.
    + rewrite <- app_assoc, drop_app_length.
      repeat constructor; done.
    + by left.
Qed.

End MoreServiceProperties.

(** ** File names *)

(** [rsplit('.', 1)] on a name without a dot. *)
Lemma split_last_dot_None (s : string) :
  PyStr.split_last_dot s = None →
  ∀ x y, s ≠ x +:+ String PyStr.dot y.
Proof.
  induction s as [|c s IH]; simpl; intros Hs x y.
  - by destruct x.
  - destruct (PyStr.split_last_dot s) as [[a b]|]; [done|].
    destruct (Ascii.eqb_spec c PyStr.dot) as [-> | Hc]; [done|].
    destruct x as [|c' x]; simpl.
    + intros [= -> _]. done.
    + intros [= _ Hx]. by apply (IH eq_refl x y).
Qed.

(** [rsplit('.', 1)] on a name with a dot: the two parts are what stands
    before and after the last dot. *)
Lemma split_last_dot_Some (s a b : string) :
  PyStr.split_last_dot s = Some (a, b) →
  s = a +:+ String PyStr.dot b ∧ ∀ x y, b ≠ x +:+ String PyStr.dot y.
Proof.
  revert a b. induction s as [|c s IH]; simpl; intros a b Hs; [done|].
  destruct (PyStr.split_last_dot s) as [[a' b']|] eqn:Hs'.
  - injection Hs as <- <-. destruct (IH a' b' eq_refl) as [-> Hb].
    done.
  - destruct (Ascii.eqb_spec c PyStr.dot) as [-> | Hc]; [|done].
    injection Hs as <- <-. split; [done|].
    by apply split_last_dot_None.
Qed.

(** ** Authentication and upload *)

Section UploadProperties.
Context {S : Type} `{ImageStorageLaws S} `{!ImageStorageFrame S}.
Variable Image_open : bytes → result image.
Variable Image_resize : image → Z * Z → result image.
Variable Image_save : image → result bytes.
Variable PROJECTS : gmap string project_config.
Variable ALLOWED_EXTENSIONS : gset string.
Variable secure_filename : string → string.
Variable url_for_serve_original_image : string → string → string → string.

Abbreviation upload' :=
  (upload_image Image_open Image_save PROJECTS ALLOWED_EXTENSIONS
     secure_filename url_for_serve_original_image).
Abbreviation upload_body :=
  (upload_image_body Image_open Image_save PROJECTS ALLOWED_EXTENSIONS
     secure_filename url_for_serve_original_image).

Abbreviation authorized' := (authorized PROJECTS).
Abbreviation ok_reply := (upload_ok_reply url_for_serve_original_image).

(** The decorator runs its function only for an authorized' request; any
    other request gets the 401 reply or an exception, in the state it
    found. *)
Lemma requires_auth_cases (f : request → M reply) (req : request)
    (w : world (S := S)) :
  (authorized' req ∧ requires_auth PROJECTS f req w = f req w) ∨
  (¬ authorized' req ∧
   (requires_auth PROJECTS f req w = (Ok _authenticate, w) ∨
    requires_auth PROJECTS f req w = (Raise KeyError, w))).
Proof.
  unfold requires_auth, authorized.
  destruct (authorization req) as [[username password]|] eqn:Ha.
  2: { right. split; [|by left]. by intros (p & c & _ & _ & [=]). }
  unfold _check_auth, bindM, lift, ret.
  destruct (form req !! "project"%string) as [project|] eqn:Hf.
  2: { right. split; [|by right]. by intros (p & c & [=] & _). }
  destruct (PROJECTS !! project) as [cfg|] eqn:Hp.
  2: { right. split; [|by left].
       intros (p & c & [= <-] & Hp' & _). congruence. }
  destruct (auth cfg) as [cu cp] eqn:Hau.
  destruct (decide (username = cu ∧ password = cp)) as [[-> ->] | Hne].
  - left. rewrite !bool_decide_eq_true_2 by done. simpl.
    split; [|done]. exists project, cfg. by rewrite Hau.
  - right. split.
    + intros (p & c & [= <-] & Hp' & Hauth).
      rewrite Hp in Hp'. injection Hp' as <-. rewrite Hau in Hauth.
      injection Hauth as -> ->. by destruct Hne.
    + left. destruct (bool_decide (username = cu)) eqn:H1;
        [|done].
      destruct (bool_decide (password = cp)) eqn:H2; [|done].
      apply bool_decide_eq_true in H1, H2. by destruct Hne.
Qed.

(** X9. [requires_auth]: the decorated function behaves as the function
    itself when the request carries the user and password configured for the
    project named in its form; when the project is unknown, the credentials
    are absent or they differ, the reply is the 401 challenge and the
    function is not run. *)
Theorem requires_auth_guards_handler
    (f : request → M reply) (req : request) (project : string)
    (w : world (S := S)) :
  form req !! "project"%string = Some project →
  (∀ cfg, PROJECTS !! project = Some cfg →
          authorization req = Some (auth cfg) →
          requires_auth PROJECTS f req w = f req w) ∧
  (PROJECTS !! project = None ∨ authorization req = None ∨
   (∃ cfg, PROJECTS !! project = Some cfg ∧
           authorization req ≠ Some (auth cfg)) →
   requires_auth PROJECTS f req w = (Ok _authenticate, w)).
Proof.
  intros Hf. split.
  - intros cfg Hp Ha.
    destruct (requires_auth_cases f req w) as [[_ Hr] | [Hn _]]; [done|].
    destruct Hn. by exists project, cfg.
  - intros Hbad. unfold requires_auth, _check_auth, bindM, lift, ret.
    destruct (authorization req) as [[u p]|]; [|done].
    rewrite Hf.
    destruct (PROJECTS !! project) as [cfg|] eqn:Hp; [|done].
    destruct Hbad as [[=] | [[=] | (cfg' & [= <-] & Hne)]].
    destruct (auth cfg) as [cu cp]. simpl.
    destruct (bool_decide (u = cu)) eqn:H1; [|done].
    destruct (bool_decide (p = cp)) eqn:H2; [|done].
    apply bool_decide_eq_true in H1, H2. subst. by destruct Hne.
Qed.

(** What the undecorated upload does: it either leaves the storage alone
    and does not reply 200, or it has stored the JPEG encoding of the
    uploaded image as the original [filename.extension] of the project. *)
Lemma upload_body_effect (req : request) (w w1 : world) (r : result reply) :
  upload_body req w = (r, w1) →
  (storage w1 = storage w ∧ ∀ content, r ≠ Ok (JsonReply content 200)) ∨
  (∃ uploaded project fname extension im jpeg,
     req_files req !! "file"%string = Some uploaded ∧
     form req !! "project"%string = Some project ∧
     is_Some (PROJECTS !! project) ∧
     PyStr.split_last_dot (secure_filename (filename uploaded))
     = Some (fname, extension) ∧
     PyStr.lower extension ∈ ALLOWED_EXTENSIONS ∧
     Image_open (handle_read (stream uploaded)) = Ok im ∧
     Image_save im = Ok jpeg ∧
     r = Ok (ok_reply project fname extension) ∧
     storage w1 = save (storage w) (project, fname, extension, None) jpeg).
Proof.
  unfold upload_image_body.
  destruct (req_files req !! "file"%string) as [uploaded|] eqn:Hfile;
    [|intros [= <- <-]; by left].
  destruct (form req !! "project"%string) as [project|] eqn:Hform;
    [|intros [= <- <-]; by left].
  destruct (bool_decide (is_Some (PROJECTS !! project))) eqn:Hp; simpl;
    [|intros [= <- <-]; by left].
  apply bool_decide_eq_true in Hp.
  destruct (bool_decide (filename uploaded = EmptyString)); simpl;
    [intros [= <- <-]; by left|].
  unfold bindM at 1, lift at 1, PyStr.rsplit_dot.
  destruct (PyStr.split_last_dot (secure_filename (filename uploaded)))
    as [[fname extension]|] eqn:Hsplit; simpl;
    [|intros [= <- <-]; by left].
  destruct (bool_decide (PyStr.lower extension ∈ ALLOWED_EXTENSIONS))
    eqn:Hext; simpl; [|intros [= <- <-]; by left].
  apply bool_decide_eq_true in Hext.
  unfold except_IOError, bindM at 1, pil_open, bindM, log, lift; simpl.
  destruct (Image_open (handle_read (stream uploaded))) as [im|e] eqn:Hopen;
    simpl.
  2: { destruct e; intros [= <- <-]; by left. }
  rewrite save_image_effect.
  destruct (Image_save im) as [jpeg|e] eqn:Hsave; simpl.
  2: { destruct e; intros [= <- <-]; by left. }
  unfold ret. intros [= <- <-]. right.
  exists uploaded, project, fname, extension, im, jpeg. done.
Qed.

(** The same for the decorated handler, which adds the credentials. *)
Lemma upload_effect (req : request) (w w1 : world) (r : result reply) :
  upload' req w = (r, w1) →
  (storage w1 = storage w ∧ ∀ content, r ≠ Ok (JsonReply content 200)) ∨
  (authorized' req ∧
   ∃ uploaded project fname extension im jpeg,
     req_files req !! "file"%string = Some uploaded ∧
     form req !! "project"%string = Some project ∧
     is_Some (PROJECTS !! project) ∧
     PyStr.split_last_dot (secure_filename (filename uploaded))
     = Some (fname, extension) ∧
     PyStr.lower extension ∈ ALLOWED_EXTENSIONS ∧
     Image_open (handle_read (stream uploaded)) = Ok im ∧
     Image_save im = Ok jpeg ∧
     r = Ok (ok_reply project fname extension) ∧
     storage w1 = save (storage w) (project, fname, extension, None) jpeg).
Proof.
  unfold upload_image.
  destruct (requires_auth_cases upload_body req w)
    as [[Hauth ->] | [_ [-> | ->]]].
  - intros Hb. apply upload_body_effect in Hb as [Hl | Hr]; [by left|].
    right. by split.
  - intros [= <- <-]. by left.
  - intros [= <- <-]. by left.
Qed.

(** X10. No upload without the project's credentials: whenever
    [upload_image] changes the storage, the request carried the user and
    password configured for the project named in its form. *)
Theorem upload_changes_storage_only_if_authorized
    (req : request) (w w1 : world) (r : result reply) :
  upload' req w = (r, w1) →
  storage w1 ≠ storage w →
  ∃ project cfg,
    form req !! "project"%string = Some project ∧
    PROJECTS !! project = Some cfg ∧
    authorization req = Some (auth cfg).
Proof.
  intros Hu Hch. by apply upload_effect in Hu as [[Hst _] | [Hauth _]].
Qed.

(** X11. A rejected upload stores nothing: unless the reply is the JSON
    reply with status 200, the storage is the one the request found
    (unknown project, no file, extension not allowed, undecodable data,
    failed authentication, or an exception). *)
Theorem upload_rejected_keeps_storage
    (req : request) (w w1 : world) (r : result reply) :
  upload' req w = (r, w1) →
  (∀ content, r ≠ Ok (JsonReply content 200)) →
  storage w1 = storage w.
Proof.
  intros Hu Hr. apply upload_effect in Hu as [[Hst _] | [_ Hok]]; [done|].
  destruct Hok as (? & p & f & e & ? & ? & _ & _ & _ & _ & _ & _ & _ & -> & _).
  by destruct (Hr {[ "status"%string := "ok"%string;
                     "url"%string :=
                       url_for_serve_original_image p f e ]}).
Qed.

(** X12. What a 200 reply means: the secured file name splits at its last
    dot into [filename] and [extension], the lower-cased extension is an
    allowed one, the data decodes, and the storage now holds the JPEG
    encoding of the decoded image as the original of
    [(project, filename, extension)], the extension in the case it was
    sent in; the reply carries the URL of that original. *)
Theorem upload_accepted_stores_original
    (req : request) (w w1 : world) (content : gmap string string) :
  upload' req w = (Ok (JsonReply content 200), w1) →
  ∃ uploaded project fname extension im jpeg,
    req_files req !! "file"%string = Some uploaded ∧
    form req !! "project"%string = Some project ∧
    PyStr.split_last_dot (secure_filename (filename uploaded))
    = Some (fname, extension) ∧
    PyStr.lower extension ∈ ALLOWED_EXTENSIONS ∧
    Image_open (handle_read (stream uploaded)) = Ok im ∧
    Image_save im = Ok jpeg ∧
    content !! "url"%string
    = Some (url_for_serve_original_image project fname extension) ∧
    storage w1 = save (storage w) (project, fname, extension, None) jpeg.
Proof.
  intros Hu. apply upload_effect in Hu as [[_ Hn] | [_ Hok]];
    [by destruct (Hn content)|].
  destruct Hok as (uploaded & project & fname & extension & im & jpeg
                   & ? & ? & ? & ? & ? & ? & ? & Hr & ?).
  exists uploaded, project, fname, extension, im, jpeg.
  injection Hr as ->. repeat split; try done.
Qed.

(** X13. Round trip: when an authorized upload carries a named file with
    an allowed extension, its data decodes and the JPEG encoder accepts the
    decoded image, the upload is answered with status 200, and the original
    is then served as that JPEG encoding.  (The encoder does refuse some
    decodable images; X11 and X12 cover those uploads.) *)
Theorem upload_then_serve_original
    (req : request) (uploaded : uploaded_file)
    (project fname extension : string) (cfg : project_config)
    (im : image) (jpeg : bytes) (w : world) :
  authorization req = Some (auth cfg) →
  form req !! "project"%string = Some project →
  PROJECTS !! project = Some cfg →
  req_files req !! "file"%string = Some uploaded →
  filename uploaded ≠ EmptyString →
  PyStr.split_last_dot (secure_filename (filename uploaded))
  = Some (fname, extension) →
  PyStr.lower extension ∈ ALLOWED_EXTENSIONS →
  Image_open (handle_read (stream uploaded)) = Ok im →
  Image_save im = Ok jpeg →
  ∃ w1 w2,
    upload' req w = (Ok (ok_reply project fname extension), w1) ∧
    serve_original_image Image_open Image_resize Image_save PROJECTS
      project fname extension w1
    = (Ok (jpeg, "image/jpeg"%string), w2) ∧
    storage w2 = storage w1.
Proof.
  intros Ha Hform Hp Hfile Hname Hsplit Hext Hopen Hsave.
  assert (upload' req w
          = (Ok (ok_reply project fname extension),
             World (save (storage w) (project, fname, extension, None) jpeg)
                   (trace w ++ [EvImageOpen; EvImageSave;
                                EvSave (project, fname, extension, None)
                                       jpeg]))) as Hup.
  { unfold upload_image.
    destruct (requires_auth_cases upload_body req w)
      as [[_ ->] | [Hn _]]; [|destruct Hn; by exists project, cfg].
    unfold upload_image_body. rewrite Hfile, Hform, Hp.
    rewrite (bool_decide_eq_true_2 (is_Some (Some cfg))) by eauto.
    rewrite (bool_decide_eq_false_2 _ Hname). simpl.
    unfold bindM at 1, lift at 1, PyStr.rsplit_dot. rewrite Hsplit. simpl.
    rewrite (bool_decide_eq_true_2 _ Hext). simpl.
    unfold except_IOError, bindM at 1, pil_open, bindM, log, lift; simpl.
    rewrite Hopen. simpl. rewrite save_image_effect, Hsave. simpl.
    unfold ret, upload_ok_reply.
    by rewrite <- !app_assoc. }
  eexists _, _. split; [exact Hup|].
  unfold serve_original_image, _serve_image. rewrite Hp. simpl.
  unfold bindM at 1. unfold storage_exists, bindM, log; simpl.
  rewrite exists_save. simpl.
  unfold storage_get, bindM, log, ret, send_file; simpl.
  pose proof (get_save (storage w) (project, fname, extension, None) jpeg)
    as Hg.
  destruct (get (save _ _ _) _) as [fd|]; [|done].
  simpl in Hg. injection Hg as ->. done.
Qed.

(** X14. An upload does not invalidate cached variants: a variant that
    was stored before any upload request is still served, byte for byte,
    after it, even if the upload replaced the original it was made
    from. *)
Theorem upload_keeps_cached_variants
    (req : request) (w w1 : world) (r : result reply)
    (project name extension s : string) (cfg : project_config)
    (fd : handle) :
  upload' req w = (r, w1) →
  PROJECTS !! project = Some cfg →
  is_Some (dimensions cfg !! s) →
  get (storage w) (project, name, extension, Some s) = Ok fd →
  ∃ w2,
    serve_resized_image Image_open Image_resize Image_save PROJECTS
      project name s extension w1
    = (Ok (handle_read fd, "image/jpeg"%string), w2) ∧
    storage w2 = storage w1.
Proof.
  intros Hu Hp Hs Hg.
  assert (get (storage w1) (project, name, extension, Some s) = Ok fd ∧
          exists_ (storage w1) (project, name, extension, Some s) = true)
    as [Hg1 He1].
  { assert (exists_ (storage w) (project, name, extension, Some s) = true)
      as He.
    { destruct (exists_ (storage w) _) eqn:He; [done|].
      apply get_missing in He. congruence. }
    apply upload_effect in Hu
      as [[-> _] | [_ (? & p & f & e & ? & j & _ & _ & _ & _ & _ & _ & _ & _ & ->)]];
      [done|].
    rewrite get_save_ne, exists_save_ne by congruence. done. }
  eexists. split.
  - unfold serve_resized_image, _serve_image. rewrite Hp. simpl.
    rewrite (bool_decide_eq_true_2 _ Hs), andb_false_r.
    unfold bindM at 1. unfold storage_exists, bindM, log; simpl.
    rewrite He1. simpl.
    unfold storage_get, bindM, log, ret, send_file; simpl. rewrite Hg1.
    reflexivity.
  - reflexivity.
Qed.

(** X15. A file name that has no dot after [secure_filename] is not
    answered with a JSON failure: the unpacking of [rsplit('.', 1)] raises
    [ValueError], before anything is decoded or stored. *)
Theorem upload_name_without_dot_raises
    (req : request) (uploaded : uploaded_file) (project : string)
    (cfg : project_config) (w : world) :
  authorization req = Some (auth cfg) →
  form req !! "project"%string = Some project →
  PROJECTS !! project = Some cfg →
  req_files req !! "file"%string = Some uploaded →
  filename uploaded ≠ EmptyString →
  PyStr.split_last_dot (secure_filename (filename uploaded)) = None →
  upload' req w = (Raise ValueError, w).
Proof.
  intros Ha Hform Hp Hfile Hname Hsplit. unfold upload_image.
  destruct (requires_auth_cases upload_body req w)
    as [[_ ->] | [Hn _]]; [|destruct Hn; by exists project, cfg].
  unfold upload_image_body. rewrite Hfile, Hform, Hp.
  rewrite (bool_decide_eq_true_2 (is_Some (Some cfg))) by eauto.
  rewrite (bool_decide_eq_false_2 _ Hname). simpl.
  unfold bindM at 1, lift at 1, PyStr.rsplit_dot. rewrite Hsplit.
  reflexivity.
Qed.

(** X16. The key of an accepted upload: the stored original is
    [(project, filename, extension, None)] where [filename.extension] is the
    secured file name, cut at its last dot, so that the extension holds no
    dot; every artifact under another key is as it was. *)
Theorem upload_accepted_key
    (req : request) (w w1 : world) (content : gmap string string) :
  upload' req w = (Ok (JsonReply content 200), w1) →
  ∃ uploaded project fname extension,
    req_files req !! "file"%string = Some uploaded ∧
    form req !! "project"%string = Some project ∧
    secure_filename (filename uploaded)
    = fname +:+ String PyStr.dot extension ∧
    (∀ x y, extension ≠ x +:+ String PyStr.dot y) ∧
    exists_ (storage w1) (project, fname, extension, None) = true ∧
    ∀ k, k ≠ (project, fname, extension, None) →
         get (storage w1) k = get (storage w) k.
Proof.
  intros Hu. apply upload_effect in Hu as [[_ Hn] | [_ Hok]];
    [by destruct (Hn content)|].
  destruct Hok as (uploaded & project & fname & extension & im & jpeg
                   & Hfile & Hform & _ & Hsplit & _ & _ & _ & _ & ->).
  apply split_last_dot_Some in Hsplit as [Hname Hext].
  exists uploaded, project, fname, extension.
  split; [done|]. split; [done|]. split; [done|]. split; [done|].
  split; [apply exists_save|].
  intros k Hk. by apply get_save_ne.
Qed.

End UploadProperties.

(** X17. The storage singleton is fixed by the first call that creates
    it: the object is the filesystem backend for [STORAGE = 'FILESYSTEM'],
    the datastore backend for [STORAGE = 'APPENGINE'], and every later call
    returns that same object, whatever the configuration has become. *)
Theorem storage_fixed_by_first_call
    (STORAGE : string) (disk : FileImageStorage)
    (datastore : DatastoreImageStorage) (o : storage_object) :
  _storage STORAGE disk datastore None = Some o →
  (STORAGE = "FILESYSTEM"%string ∧ o = FileStorageObject disk ∨
   STORAGE = "APPENGINE"%string ∧ o = DatastoreObject datastore) ∧
  ∀ STORAGE' disk' datastore',
    _storage STORAGE' disk' datastore'
      (_storage STORAGE disk datastore None) = Some o.
Proof.
  unfold _storage.
  destruct (bool_decide (STORAGE = "FILESYSTEM"%string)) eqn:H1.
  - apply bool_decide_eq_true in H1. intros [= <-]. split; [by left|done].
  - destruct (bool_decide (STORAGE = "APPENGINE"%string)) eqn:H2; [|done].
    apply bool_decide_eq_true in H2. intros [= <-]. split; [by right|done].
Qed.

Lemma storage_fixed_by_first_call_witness :
  ("FILESYSTEM"%string = "FILESYSTEM"%string ∧
   FileStorageObject Demo.fs0 = FileStorageObject Demo.fs0 ∨
   "FILESYSTEM"%string = "APPENGINE"%string ∧
   FileStorageObject Demo.fs0 = DatastoreObject {| records := ∅ |}) ∧
  ∀ STORAGE' disk' datastore',
    _storage STORAGE' disk' datastore'
      (_storage "FILESYSTEM" Demo.fs0 {| records := ∅ |} None)
    = Some (FileStorageObject Demo.fs0).
Proof.
  apply (storage_fixed_by_first_call "FILESYSTEM" Demo.fs0
           {| records := ∅ |} (FileStorageObject Demo.fs0)).
  reflexivity.
Defined.

(** ** The properties on the concrete deployment *)

Lemma save_image_round_trip_witness :
  let k : image_key := ("demo_project", "welcome", "jpg", Some "small")%string in
  let im := Image (50, 100) [42] in
  let '(r, w1) :=
    save_image Demo.Image_save "demo_project" "welcome" "jpg" im
      (Some "small"%string) Demo.w0 in
  match Demo.Image_save im with
  | Ok data =>
      r = Ok tt ∧ exists_ (storage w1) k = true ∧
      handle_read <$> get (storage w1) k = Ok data
  | Raise e => r = Raise e ∧ storage w1 = storage Demo.w0
  end.
Proof.
  exact (save_image_round_trip Demo.Image_save "demo_project" "welcome" "jpg"
           (Image (50, 100) [42]) (Some "small"%string) Demo.w0).
Defined.

Lemma serve_failure_keeps_storage_witness :
  storage
    (Demo.serve "demo_project" "absent" (Some "small"%string) "jpg"
       Demo.w0).2
  = storage Demo.w0.
Proof.
  apply (serve_failure_keeps_storage
           Demo.Image_open Demo.Image_resize Demo.Image_save Demo.PROJECTS
           "demo_project" "absent" "jpg" (Some "small"%string)
           Demo.w0 _ NotFound).
  vm_compute. reflexivity.
Defined.

Lemma serve_touches_only_requested_key_witness :
  let w1 :=
    (Demo.serve "demo_project" "welcome" (Some "small"%string) "jpg"
       Demo.w0).2 in
  let original : image_key :=
    ("demo_project", "welcome", "jpg", None)%string in
  get (storage w1) original = get (storage Demo.w0) original ∧
  exists_ (storage w1) original = exists_ (storage Demo.w0) original.
Proof.
  intros w1 original.
  apply (serve_touches_only_requested_key
           Demo.Image_open Demo.Image_resize Demo.Image_save Demo.PROJECTS
           "demo_project" "welcome" "jpg" (Some "small"%string)
           Demo.w0 w1
           (Demo.serve "demo_project" "welcome" (Some "small"%string) "jpg"
              Demo.w0).1).
  - apply surjective_pairing.
  - discriminate.
Defined.

Lemma serve_miss_generates_and_stores_witness :
  let variant : image_key :=
    ("demo_project", "welcome", "jpg", Some "small")%string in
  let original : image_key :=
    ("demo_project", "welcome", "jpg", None)%string in
  let jpeg := [Byte.x00; Byte.x32; Byte.x00; Byte.x64; Byte.x2a] in
  serve_resized_image (S := FileImageStorage)
    Demo.Image_open Demo.Image_resize Demo.Image_save Demo.PROJECTS
    "demo_project" "welcome" "small" "jpg" Demo.w0
  = (Ok (jpeg, "image/jpeg"%string),
     World (save Demo.fs0 variant jpeg)
       [EvExists variant; EvExists original; EvGet original;
        EvImageOpen; EvResize (50, 100); EvImageSave;
        EvSave variant jpeg; EvImageSave]).
Proof.
  intros variant original jpeg.
  apply (serve_miss_generates_and_stores
           Demo.Image_open Demo.Image_resize Demo.Image_save Demo.PROJECTS
           "demo_project" "welcome" "jpg" "small"
           (ProjectConfig {[ "small"%string := (100, 100) ]}
                          ("user"%string, "secret"%string))
           (100, 100) (50, 100) (Handle Demo.welcome false)
           (Image (200, 400) [42]) (Image (50, 100) [42]) jpeg Demo.w0);
    vm_compute; reflexivity.
Defined.

Lemma serve_original_image_reads_only_witness :
  let res :=
    serve_original_image (S := FileImageStorage)
      Demo.Image_open Demo.Image_resize Demo.Image_save Demo.PROJECTS
      "demo_project" "welcome" "jpg" Demo.w0 in
  storage res.2 = storage Demo.w0 ∧
  Forall (λ ev, is_codec_event ev = false ∧ ∀ k d, ev ≠ EvSave k d)
         (drop (length (trace Demo.w0)) (trace res.2)) ∧
  (res.1 = Raise NotFound ∨
   ∃ fd, get (storage Demo.w0) ("demo_project", "welcome", "jpg", None)%string
         = Ok fd ∧
         res.1 = Ok (handle_read fd, "image/jpeg"%string)).
Proof.
  intros res.
  apply (serve_original_image_reads_only
           Demo.Image_open Demo.Image_resize Demo.Image_save Demo.PROJECTS
           "demo_project" "welcome" "jpg" Demo.w0).
  apply surjective_pairing.
Defined.

Lemma requires_auth_guards_handler_witness :
  let f : request → M (S := FileImageStorage) reply :=
    λ _, ret (json_response ∅ 200) in
  (∀ cfg, Demo.PROJECTS !! "demo_project"%string = Some cfg →
          authorization Demo.upload_request = Some (auth cfg) →
          requires_auth Demo.PROJECTS f Demo.upload_request Demo.w0
          = f Demo.upload_request Demo.w0) ∧
  (Demo.PROJECTS !! "demo_project"%string = None ∨
   authorization Demo.upload_request = None ∨
   (∃ cfg, Demo.PROJECTS !! "demo_project"%string = Some cfg ∧
           authorization Demo.upload_request ≠ Some (auth cfg)) →
   requires_auth Demo.PROJECTS f Demo.upload_request Demo.w0
   = (Ok _authenticate, Demo.w0)).
Proof.
  intros f.
  apply (requires_auth_guards_handler Demo.PROJECTS f Demo.upload_request
           "demo_project" Demo.w0).
  reflexivity.
Defined.

Lemma upload_changes_storage_only_if_authorized_witness :
  ∃ project cfg,
    form Demo.upload_request !! "project"%string = Some project ∧
    Demo.PROJECTS !! project = Some cfg ∧
    authorization Demo.upload_request = Some (auth cfg).
Proof.
  apply (upload_changes_storage_only_if_authorized
           Demo.Image_open Demo.Image_save Demo.PROJECTS
           Demo.ALLOWED_EXTENSIONS Demo.secure_filename
           Demo.url_for_serve_original_image
           Demo.upload_request Demo.w0
           (Demo.upload_image Demo.upload_request Demo.w0).2
           (Demo.upload_image Demo.upload_request Demo.w0).1).
  - apply surjective_pairing.
  - intros Heq.
    assert (exists_ (storage (Demo.upload_image Demo.upload_request
                                Demo.w0).2)
                    ("demo_project", "my_cat", "JPG", None)%string
            = exists_ (storage Demo.w0)
                      ("demo_project", "my_cat", "JPG", None)%string) as He
      by (by rewrite Heq).
    vm_compute in He. discriminate.
Defined.

Lemma upload_rejected_keeps_storage_witness :
  let req := Request None {[ "project"%string := "demo_project"%string ]} ∅ in
  storage (Demo.upload_image req Demo.w0).2 = storage Demo.w0.
Proof.
  intros req.
  apply (upload_rejected_keeps_storage
           Demo.Image_open Demo.Image_save Demo.PROJECTS
           Demo.ALLOWED_EXTENSIONS Demo.secure_filename
           Demo.url_for_serve_original_image
           req Demo.w0 _ (Ok _authenticate)).
  - vm_compute. reflexivity.
  - intros content. discriminate.
Defined.

Lemma upload_accepted_stores_original_witness :
  ∃ uploaded project fname extension im jpeg,
    req_files Demo.upload_request !! "file"%string = Some uploaded ∧
    form Demo.upload_request !! "project"%string = Some project ∧
    PyStr.split_last_dot (Demo.secure_filename (filename uploaded))
    = Some (fname, extension) ∧
    PyStr.lower extension ∈ Demo.ALLOWED_EXTENSIONS ∧
    Demo.Image_open (handle_read (stream uploaded)) = Ok im ∧
    Demo.Image_save im = Ok jpeg ∧
    ({[ "status"%string := "ok"%string;
        "url"%string := "/img/demo_project/my_cat.JPG"%string ]}
       : gmap string string) !! "url"%string
    = Some (Demo.url_for_serve_original_image project fname extension) ∧
    storage (Demo.upload_image Demo.upload_request Demo.w0).2
    = save (storage Demo.w0) (project, fname, extension, None) jpeg.
Proof.
  apply (upload_accepted_stores_original
           Demo.Image_open Demo.Image_save Demo.PROJECTS
           Demo.ALLOWED_EXTENSIONS Demo.secure_filename
           Demo.url_for_serve_original_image
           Demo.upload_request Demo.w0).
  vm_compute. reflexivity.
Defined.

Lemma upload_then_serve_original_witness :
  ∃ w1 w2,
    Demo.upload_image Demo.upload_request Demo.w0
    = (Ok (upload_ok_reply Demo.url_for_serve_original_image
             "demo_project" "my_cat" "JPG"), w1) ∧
    serve_original_image (S := FileImageStorage)
      Demo.Image_open Demo.Image_resize Demo.Image_save Demo.PROJECTS
      "demo_project" "my_cat" "JPG" w1
    = (Ok (Demo.cat, "image/jpeg"%string), w2) ∧
    storage w2 = storage w1.
Proof.
  apply (upload_then_serve_original
           Demo.Image_open Demo.Image_resize Demo.Image_save Demo.PROJECTS
           Demo.ALLOWED_EXTENSIONS Demo.secure_filename
           Demo.url_for_serve_original_image
           Demo.upload_request (UploadedFile "my cat.JPG" (Handle Demo.cat false))
           "demo_project" "my_cat" "JPG"
           (ProjectConfig {[ "small"%string := (100, 100) ]}
                          ("user"%string, "secret"%string))
           (Image (3, 2) [7]) Demo.cat Demo.w0);
    try (vm_compute; reflexivity); try discriminate.
Defined.

Lemma upload_keeps_cached_variants_witness :
  let w :=
    (Demo.serve "demo_project" "welcome" (Some "small"%string) "jpg"
       Demo.w0).2 in
  let w1 := (Demo.upload_image Demo.upload_request w).2 in
  ∃ w2,
    serve_resized_image (S := FileImageStorage)
      Demo.Image_open Demo.Image_resize Demo.Image_save Demo.PROJECTS
      "demo_project" "welcome" "small" "jpg" w1
    = (Ok ([Byte.x00; Byte.x32; Byte.x00; Byte.x64; Byte.x2a],
           "image/jpeg"%string), w2) ∧
    storage w2 = storage w1.
Proof.
  intros w w1.
  apply (upload_keeps_cached_variants
           Demo.Image_open Demo.Image_resize Demo.Image_save Demo.PROJECTS
           Demo.ALLOWED_EXTENSIONS Demo.secure_filename
           Demo.url_for_serve_original_image
           Demo.upload_request w w1
           (Demo.upload_image Demo.upload_request w).1
           "demo_project" "welcome" "jpg" "small"
           (ProjectConfig {[ "small"%string := (100, 100) ]}
                          ("user"%string, "secret"%string))
           (Handle [Byte.x00; Byte.x32; Byte.x00; Byte.x64; Byte.x2a] false)).
  - apply surjective_pairing.
  - reflexivity.
  - by eexists.
  - vm_compute. reflexivity.
Defined.

Lemma upload_name_without_dot_raises_witness :
  let req :=
    Request (Some ("user"%string, "secret"%string))
            {[ "project"%string := "demo_project"%string ]}
            {[ "file"%string := UploadedFile "README" (Handle Demo.cat false) ]} in
  Demo.upload_image req Demo.w0 = (Raise ValueError, Demo.w0).
Proof.
  intros req.
  apply (upload_name_without_dot_raises
           Demo.Image_open Demo.Image_save Demo.PROJECTS
           Demo.ALLOWED_EXTENSIONS Demo.secure_filename
           Demo.url_for_serve_original_image
           req (UploadedFile "README" (Handle Demo.cat false))
           "demo_project"
           (ProjectConfig {[ "small"%string := (100, 100) ]}
                          ("user"%string, "secret"%string))
           Demo.w0);
    try (vm_compute; reflexivity); try discriminate.
Defined.

Lemma upload_accepted_key_witness :
  ∃ uploaded project fname extension,
    req_files Demo.upload_request !! "file"%string = Some uploaded ∧
    form Demo.upload_request !! "project"%string = Some project ∧
    Demo.secure_filename (filename uploaded)
    = fname +:+ String PyStr.dot extension ∧
    (∀ x y, extension ≠ x +:+ String PyStr.dot y) ∧
    exists_ (storage (Demo.upload_image Demo.upload_request Demo.w0).2)
            (project, fname, extension, None) = true ∧
    ∀ k, k ≠ (project, fname, extension, None) →
         get (storage (Demo.upload_image Demo.upload_request Demo.w0).2) k
         = get (storage Demo.w0) k.
Proof.
  apply (upload_accepted_key
           Demo.Image_open Demo.Image_save Demo.PROJECTS
           Demo.ALLOWED_EXTENSIONS Demo.secure_filename
           Demo.url_for_serve_original_image
           Demo.upload_request Demo.w0 _
           {[ "status"%string := "ok"%string;
              "url"%string := "/img/demo_project/my_cat.JPG"%string ]}).
  vm_compute. reflexivity.
Defined.
